(** * rag_rago_cache.cpp: LRU cache, retrieval, context assembly, knobs

    A shallow embedding of [src/rag_rago_cache.cpp].

    Conventions of the model.
    - [size_t] is the 64-bit unsigned type of an LP64 platform; a value of
      it is an [N] or a [Z] in [0, 2^64), conversions are written out.
    - [int] is a [Z]; signed overflow is undefined behaviour and is
      reported as such where the source can reach it.
    - [std::deque<K>] is a [list K], front first.  [slots_] pairs each
      value with an iterator into the deque.  Such an iterator is only
      ever stored as [order_.begin()] right after [order_.push_front(key)],
      so while it is valid it designates the element that holds its key.
      Every [push_front] invalidates all iterators of a deque, and so does
      an [erase] away from its ends: the model keeps the values in
      [slots_] and, beside them, in [iters_] the keys whose stored
      iterator is still valid.  Reading or erasing through an invalidated
      iterator is undefined behaviour.
    - Calling [back()] or [pop_back()] on an empty deque is undefined
      behaviour; a [reserve] request that no allocator can satisfy throws.
    - Wall-clock readings ([now_ms]) and sleeps ([tiny_pause_ms]) have no
      functional effect and are left out; the [std::async] task of
      [serve_one] is pure and is run in place at its join. *)

From Stdlib Require Import ZArith Floats.
From stdpp Require Import base gmap list strings pretty sorting.

Local Open Scope Z_scope.
#[local] Set Warnings "-clear-no-such-hyp".

(** ** Outcomes of a call *)

(** A call returns a value, throws a C++ exception, or has undefined
    behaviour. *)
Inductive outcome (A : Type) : Type :=
  | Ok (a : A)
  | Throws
  | Undefined.
Arguments Ok {A} a.
Arguments Throws {A}.
Arguments Undefined {A}.

#[global] Instance outcome_ret : MRet outcome := @Ok.
#[global] Instance outcome_bind : MBind outcome := λ A B f m,
  match m with
  | Ok a => f a
  | Throws => Throws
  | Undefined => Undefined
  end.

#[global] Instance outcome_fmap : FMap outcome := λ A B f m,
  match m with
  | Ok a => Ok (f a)
  | Throws => Throws
  | Undefined => Undefined
  end.

Definition is_Ok {A : Type} (m : outcome A) : Prop := ∃ a, m = Ok a.

(** ** Machine integers *)

Definition SIZE_BITS : Z := 64.
Definition SIZE_MOD : Z := 2 ^ SIZE_BITS.
Definition PTRDIFF_MAX : Z := 2 ^ 63 - 1.
Definition INT_MIN : Z := - 2 ^ 31.
Definition INT_MAX : Z := 2 ^ 31 - 1.

(** Conversion of an integer to [size_t] (implicit or by [static_cast]). *)
Definition to_size_t (z : Z) : Z := z mod SIZE_MOD.

(** Multiplication in [size_t]. *)
Definition size_mul (a b : Z) : Z := (a * b) mod SIZE_MOD.

(** [c.reserve(n)] for a container of elements of [elem] bytes: a request
    beyond [max_size()] throws [std::length_error], and one beyond
    [PTRDIFF_MAX] bytes cannot be allocated ([std::bad_alloc]); both are
    exceptions.  Smaller requests are taken to succeed. *)
Definition reserve (elem : Z) (n : Z) : outcome unit :=
  if PTRDIFF_MAX <? n * elem then Throws else Ok tt.

(** ** LruBox *)

Section LruBox.
Context {K : Type} `{Countable K} {V : Type}.

Record LruBox : Type := mkLruBox {
  cap_ : N;
  order_ : list K;
  slots_ : gmap K V;
  iters_ : gset K
}.

(** [explicit LruBox(size_t cap) : cap_(cap) {}] *)
Definition LruBox_new (cap : N) : LruBox :=
  {| cap_ := cap; order_ := []; slots_ := ∅; iters_ := ∅ |}.

(** A constructor call whose argument is an [int] expression: the
    argument is converted to [size_t] first. *)
Definition LruBox_from_int (cap : Z) : outcome LruBox :=
  Ok (LruBox_new (Z.to_N (to_size_t cap))).

(** [size_t size() const { return slots_.size(); }] *)
Definition size (b : LruBox) : nat := base.size (slots_ b).

(** [order_.erase(it)] for a valid iterator: removes the one element it
    designates, the element that holds [key]. *)
Fixpoint erase (key : K) (order : list K) : list K :=
  match order with
  | [] => []
  | k :: rest => if decide (k = key) then rest else k :: erase key rest
  end.

(** [touch(it)] for the iterator stored under [key].  If it has been
    invalidated, [*it] and [order_.erase(it)] are undefined.  Otherwise
    [key = *it]; [erase] and [push_front] leave no iterator valid, and the
    last line stores a fresh [order_.begin()] for [order_.front()], which
    is [key]. *)
Definition touch (b : LruBox) (key : K) : outcome LruBox :=
  if decide (key ∈ iters_ b) then
    Ok {| cap_ := cap_ b;
          order_ := key :: erase key (order_ b);
          slots_ := slots_ b;
          iters_ := {[key]} |}
  else Undefined.

Definition get (b : LruBox) (key : K) : outcome (option V * LruBox) :=
  match slots_ b !! key with
  | None => Ok (None, b)
  | Some v => b' ← touch b key; Ok (Some v, b')
  end.

(** [slots_.emplace(key, ...)]: inserts unless the key is present. *)
Definition emplace (key : K) (value : V) (m : gmap K V) : gmap K V :=
  match m !! key with
  | Some _ => m
  | None => <[key := value]> m
  end.

(** In the branch of a new key, [pop_back] takes the evicted key and its
    iterator away, [push_front] invalidates every iterator, and [emplace]
    stores [order_.begin()] for the new key. *)
Definition put (b : LruBox) (key : K) (value : V) : outcome LruBox :=
  match slots_ b !! key with
  | Some _ =>
      touch {| cap_ := cap_ b; order_ := order_ b;
               slots_ := <[key := value]> (slots_ b);
               iters_ := iters_ b |} key
  | None =>
      ev ← (if decide (cap_ b ≤ N.of_nat (length (order_ b)))%N then
              match last (order_ b) with
              | None => Undefined
              | Some old =>
                  Ok (removelast (order_ b), delete old (slots_ b))
              end
            else Ok (order_ b, slots_ b));
      Ok {| cap_ := cap_ b;
            order_ := key :: ev.1;
            slots_ := emplace key value ev.2;
            iters_ := {[key]} |}
  end.

(** A run of [put] calls, in order. *)
Fixpoint put_all (b : LruBox) (kvs : list (K * V)) : outcome LruBox :=
  match kvs with
  | [] => Ok b
  | (k, v) :: rest => b' ← put b k v; put_all b' rest
  end.

End LruBox.

Arguments LruBox K {_ _} V.

(** ** Knobs *)

Record TuneKnobs : Type := mkTuneKnobs {
  top_k : Z;
  batch : Z;
  cheap_mode : bool
}.

Definition TuneKnobs_default : TuneKnobs :=
  {| top_k := 8; batch := 8; cheap_mode := false |}.

(** [double] is IEEE 754 binary64, as are the primitive floats; the
    literals are the doubles nearest to 0.55 and 0.25. *)
Definition c_0_55 : float := 0x1.199999999999ap-1%float.
Definition c_0_25 : float := 0x1p-2%float.

Definition pick_knobs (p95_budget_ms recent_retr_ms recent_gen_ms : float)
  : TuneKnobs :=
  let k := TuneKnobs_default in
  let k :=
    if PrimFloat.ltb (PrimFloat.mul p95_budget_ms c_0_55) recent_gen_ms
    then {| top_k := 6; batch := batch k; cheap_mode := true |}
    else {| top_k := 10; batch := batch k; cheap_mode := false |} in
  let k :=
    if PrimFloat.ltb (PrimFloat.mul p95_budget_ms c_0_25) recent_retr_ms
    then {| top_k := top_k k; batch := 16; cheap_mode := cheap_mode k |}
    else {| top_k := top_k k; batch := 8; cheap_mode := cheap_mode k |} in
  k.

(** ** Retrieval *)

(** The random engine of [fake_retrieval]: [std::mt19937] seeded from the
    bytes of the query through [std::seed_seq], read through
    [std::uniform_int_distribution<int>(0, 200000)].  The engine is local
    to each call; its state is threaded explicitly. *)
Class RandomEngine : Type := {
  rng_state : Type;
  rng_seed : string → rng_state;
  rng_pick : rng_state → Z * rng_state
}.

(** [std::unique] followed by [erase]: of each run of equal neighbours the
    first is kept. *)
Fixpoint unique_after (prev : Z) (l : list Z) : list Z :=
  match l with
  | [] => []
  | x :: rest =>
      if decide (x = prev) then unique_after prev rest
      else x :: unique_after x rest
  end.

Definition unique (l : list Z) : list Z :=
  match l with
  | [] => []
  | x :: rest => x :: unique_after x rest
  end.

Section Retrieval.
Context `{RandomEngine}.

(** [for (int i = 0; i < top_k; i++) hits.push_back(pick(rng));] *)
Fixpoint draw_hits (n : nat) (rng : rng_state) (hits : list Z) : list Z :=
  match n with
  | O => hits
  | S n' => let '(v, rng') := rng_pick rng in draw_hits n' rng' (hits ++ [v])
  end.

Definition fake_retrieval (q : string) (top_k : Z) : outcome (list Z) :=
  let rng := rng_seed q in
  _ ← reserve 4 (to_size_t top_k);
  let hits := draw_hits (Z.to_nat top_k) rng [] in
  let hits := merge_sort Z.le hits in
  Ok (unique hits).

End Retrieval.

(** ** Context assembly *)

Definition newline : string := String (Ascii.ascii_of_nat 10) EmptyString.

Definition fake_doc_text (doc_id : Z) : string :=
  "Doc#" +:+ pretty doc_id +:+ " :: " +:+
  "A short block of evidence text used for grounding.".

(** Lines 117-119 of the source: look the identifier up, on a miss fetch
    its text and store it. *)
Definition resolve (block_cache : LruBox Z string) (id : Z)
  : outcome (string * LruBox Z string) :=
  '(got, c) ← get block_cache id;
  let piece := match got with Some s => s | None => fake_doc_text id end in
  c ← (match got with None => put c id piece | Some _ => Ok c end);
  Ok (piece, c).

(** The [for] loop of [build_context]. *)
Fixpoint build_context_loop (doc_ids : list Z) (block_cache : LruBox Z string)
    (tokens_left : Z) (stitched : string)
  : outcome (string * LruBox Z string) :=
  match doc_ids with
  | [] => Ok (stitched, block_cache)
  | id :: rest =>
      '(piece, c) ← resolve block_cache id;
      let cost := 40 in
      if tokens_left - cost <? INT_MIN then Undefined
      else if tokens_left - cost <? 0 then Ok (stitched, c)
      else build_context_loop rest c (tokens_left - cost)
             ((stitched +:+ piece) +:+ newline)
  end.

Definition build_context (doc_ids : list Z) (block_cache : LruBox Z string)
    (token_budget : Z) : outcome (string * LruBox Z string) :=
  _ ← reserve 1 (size_mul (to_size_t token_budget) 4);
  build_context_loop doc_ids block_cache token_budget "".

(** ** Generation *)

Definition fake_generate (question context : string) (cheap_mode : bool)
  : string :=
  "Answer: " +:+ question +:+ newline +:+ "(grounded in " +:+
  pretty (String.length context) +:+ " bytes of context)".

(** ** Orchestrator *)

(** What a request computes.  [cache_hit] is the field of [Timings]; its
    four durations are wall-clock differences and are not represented.
    [doc_ids], [context] and [answer] are the locals of [serve_one]. *)
Record Served : Type := mkServed {
  cache_hit : bool;
  doc_ids : list Z;
  context : string;
  answer : string
}.

Section Orchestrator.
Context `{RandomEngine}.

Definition serve_one (question : string)
    (retr_cache : LruBox string (list Z))
    (block_cache : LruBox Z string) (knobs : TuneKnobs)
  : outcome (Served * LruBox string (list Z) * LruBox Z string) :=
  '(cached, retr_cache) ← get retr_cache question;
  let hit := match cached with Some _ => true | None => false end in
  '(ids, retr_cache) ←
    (match cached with
     | Some ids => Ok (ids, retr_cache)
     | None =>
         out ← fake_retrieval question (top_k knobs);
         c ← put retr_cache question out;
         Ok (out, c)
     end);
  let token_budget := if cheap_mode knobs then 220 else 320 in
  '(ctx, block_cache) ← build_context ids block_cache token_budget;
  let ans := fake_generate question ctx (cheap_mode knobs) in
  Ok ({| cache_hit := hit; doc_ids := ids; context := ctx; answer := ans |},
      retr_cache, block_cache).

End Orchestrator.

(** ** Vocabulary of the statements *)

Section LruBoxRuns.
Context {K : Type} `{Countable K} {V : Type}.

(** The representation invariant: the keys of [slots_] and the elements
    of [order_] are in bijection. *)
Definition wf (b : LruBox K V) : Prop :=
  NoDup (order_ b) ∧ dom (slots_ b) = list_to_set (order_ b).

Definition within_cap (b : LruBox K V) : Prop :=
  (N.of_nat (length (order_ b)) ≤ cap_ b)%N.

(** The keys whose stored iterator is valid after the calls made so far:
    the front key alone. *)
Definition front_iter (order : list K) : gset K := list_to_set (take 1 order).

Definition iters_front (b : LruBox K V) : Prop :=
  iters_ b = front_iter (order_ b).

(** [n] successive calls of [get] on the same key: the values returned,
    oldest first, and the final cache. *)
Fixpoint get_n (n : nat) (b : LruBox K V) (key : K)
  : outcome (list (option V) * LruBox K V) :=
  match n with
  | O => Ok ([], b)
  | S n' =>
      '(r, b') ← get b key;
      '(rs, b'') ← get_n n' b' key;
      Ok (r :: rs, b'')
  end.

(** Fill an empty cache of capacity [C] with [kv1 :: rest], read the
    first key back, then insert [kvN]. *)
Definition reread_then_put (C : N) (kv1 : K * V) (rest : list (K * V))
    (kvN : K * V) : outcome (option V * LruBox K V) :=
  b ← put_all (LruBox_new C) (kv1 :: rest);
  '(r, b) ← get b kv1.1;
  b ← put b kvN.1 kvN.2;
  Ok (r, b).

(** A call of [get] or of [put]. *)
Inductive LruOp : Type :=
  | OpGet (key : K)
  | OpPut (key : K) (value : V).

(** A run of calls, in order; the values [get] returns are dropped. *)
Fixpoint run_ops (b : LruBox K V) (ops : list LruOp) : outcome (LruBox K V) :=
  match ops with
  | [] => Ok b
  | OpGet key :: rest => '(_, b') ← get b key; run_ops b' rest
  | OpPut key value :: rest => b' ← put b key value; run_ops b' rest
  end.

End LruBoxRuns.

Arguments LruOp : clear implicits.

(** The fragments [build_context] obtains for a list of identifiers, in
    order, each looked up in the cache left by the previous one. *)
Fixpoint resolve_all (ids : list Z) (c : LruBox Z string)
  : outcome (list string * LruBox Z string) :=
  match ids with
  | [] => Ok ([], c)
  | id :: rest =>
      '(piece, c) ← resolve c id;
      '(pieces, c) ← resolve_all rest c;
      Ok (piece :: pieces, c)
  end.

(** The entries that misses on the given identifiers store. *)
Definition doc_entries (ids : list Z) : list (Z * string) :=
  (λ id, (id, fake_doc_text id)) <$> ids.

(** A fragment cache that holds, for each identifier in it, the text
    [fake_doc_text] gives: the only texts [build_context] ever stores. *)
Definition clean (c : LruBox Z string) : Prop :=
  ∀ id s, slots_ c !! id = Some s → s = fake_doc_text id.

(** A small linear congruential engine, used to run the statements on
    concrete inputs.  It stands in for [std::mt19937], whose output the
    statements do not depend on. *)
Definition lcg_engine : RandomEngine := {|
  rng_state := Z;
  rng_seed q := Z.of_nat (String.length q);
  rng_pick s :=
    let s' := (s * 1103515245 + 12345) mod 2147483648 in
    (s' mod 200001, s')
|}.

(** The text made of the given fragments, each followed by one separator. *)
Fixpoint stitch (pieces : list string) : string :=
  match pieces with
  | [] => ""
  | p :: rest => p +:+ newline +:+ stitch rest
  end.

(** ** The driver *)

(** The loop of [main] over a list of questions.  The two durations that
    [main] reads back from each [Timings] are wall-clock measurements:
    [measured i] supplies those of request [i] ([retrieval_ms], [gen_ms]).
    The log holds, per request, the knobs used and what was served. *)
Section Driver.
Context `{RandomEngine}.

Fixpoint main_loop (p95_budget_ms : float) (measured : nat → float * float)
    (traffic : list string) (i : nat)
    (retr_cache : LruBox string (list Z)) (block_cache : LruBox Z string)
    (last_retr last_gen : float)
  : outcome (list (TuneKnobs * Served)
             * LruBox string (list Z) * LruBox Z string) :=
  match traffic with
  | [] => Ok ([], retr_cache, block_cache)
  | question :: rest =>
      let knobs := pick_knobs p95_budget_ms last_retr last_gen in
      '(t, retr_cache, block_cache) ←
        serve_one question retr_cache block_cache knobs;
      let '(retrieval_ms, gen_ms) := measured i in
      '(log, retr_cache, block_cache) ←
        main_loop p95_budget_ms measured rest (S i) retr_cache block_cache
          retrieval_ms gen_ms;
      Ok ((knobs, t) :: log, retr_cache, block_cache)
  end.

Definition main_traffic : list string :=
  [ "what is rag latency?"; "how to reduce rag cost?"; "what is rag latency?";
    "explain caching in rag"; "how to reduce rag cost?";
    "what is ragserve vs rago?" ].

(** [main], up to its printing: the log and the two sizes it prints last. *)
Definition main (measured : nat → float * float)
  : outcome (list (TuneKnobs * Served) * nat * nat) :=
  '(log, retr_cache, block_cache) ←
    main_loop 40 measured main_traffic 0 (LruBox_new 512) (LruBox_new 4096)
      8 18;
  Ok (log, size retr_cache, size block_cache).

End Driver.

(** * Properties *)

(** ** Sanity checks on concrete inputs *)

Example pick_knobs_spec_1 :
  pick_knobs 40 5 25 = {| top_k := 6; batch := 8; cheap_mode := true |}.
Proof. vm_compute. reflexivity. Qed.

Example pick_knobs_spec_2 :
  pick_knobs 40 20 10 = {| top_k := 10; batch := 16; cheap_mode := false |}.
Proof. vm_compute. reflexivity. Qed.

Example fake_doc_text_7 :
  fake_doc_text 7 = "Doc#7 :: A short block of evidence text used for grounding.".
Proof. vm_compute. reflexivity. Qed.

Example fake_doc_text_neg :
  fake_doc_text (-12) = "Doc#-12 :: A short block of evidence text used for grounding.".
Proof. vm_compute. reflexivity. Qed.

Example unique_runs : unique [1; 1; 2; 3; 3; 3; 5] = [1; 2; 3; 5].
Proof. reflexivity. Qed.

Example put_cap0 : put (LruBox_new (K:=Z) (V:=Z) 0) 1 10 = Undefined.
Proof. reflexivity. Qed.

Example put_three_cap2 :
  put_all (LruBox_new (K:=Z) (V:=Z) 2) [(1, 10); (2, 20); (3, 30)]
  = Ok {| cap_ := 2; order_ := [3; 2];
          slots_ := <[3 := 30]> (delete 1 (<[2 := 20]> (<[1 := 10]> ∅)));
          iters_ := {[3]} |}.
Proof. reflexivity. Qed.

(** A read of the key put last is defined; a read of an older key goes
    through an iterator that the later [push_front] invalidated. *)
Example get_newest_cap2 :
  (b ← put_all (LruBox_new (K:=Z) (V:=Z) 2) [(1, 10); (2, 20)];
   r ← get b 2; Ok (r.1, order_ r.2))
  = Ok (Some 20, [2; 1]).
Proof. reflexivity. Qed.

Example get_older_cap2 :
  (b ← put_all (LruBox_new (K:=Z) (V:=Z) 2) [(1, 10); (2, 20)]; get b 1)
  = Undefined.
Proof. reflexivity. Qed.

Example reread_cap2 :
  reread_then_put (V:=Z) 2 (1, 10) [(2, 20)] (3, 30) = Undefined.
Proof. reflexivity. Qed.

Example reread_cap1 :
  (λ r, (r.1, order_ r.2)) <$> reread_then_put (V:=Z) 1 (1, 10) [] (2, 20)
  = Ok (Some 10, [2]).
Proof. reflexivity. Qed.

(** ** LruBox: the representation invariant *)

Section LruBoxFacts.
Context {K : Type} `{Countable K} {V : Type}.
Implicit Types (b : LruBox K V) (key old : K) (value : V) (order : list K).

Lemma elem_of_erase_ne key k order :
  k ≠ key → k ∈ erase key order ↔ k ∈ order.
Proof.
  intros Hne. induction order as [|x order IH]; simpl; [done|].
  case_decide; subst; set_solver.
Qed.

Lemma erase_not_elem key order : key ∉ order → erase key order = order.
Proof.
  induction order as [|x order IH]; simpl; [done|].
  intros Hnotin. case_decide; [set_solver|].
  f_equal. apply IH. set_solver.
Qed.

Lemma NoDup_erase key order :
  NoDup order → NoDup (erase key order) ∧ key ∉ erase key order.
Proof.
  induction 1 as [|x order Hx Hnd [IH1 IH2]]; simpl.
  - split; [constructor | set_solver].
  - case_decide; subst; [done|]. split.
    + constructor; [|done]. by rewrite elem_of_erase_ne.
    + set_solver.
Qed.

Lemma length_erase key order :
  key ∈ order → S (length (erase key order)) = length order.
Proof.
  induction order as [|x order IH]; simpl; [set_solver|].
  intros Hin. case_decide; [done|].
  simpl. f_equal. apply IH. set_solver.
Qed.

Lemma list_to_set_erase key order :
  key ∈ order →
  list_to_set (C:=gset K) (key :: erase key order) = list_to_set order.
Proof.
  intros Hin. apply set_eq. intros k.
  rewrite !elem_of_list_to_set, elem_of_cons.
  destruct (decide (k = key)) as [->|Hne]; [naive_solver|].
  rewrite elem_of_erase_ne by done. naive_solver.
Qed.

Lemma wf_size b : wf b → size b = length (order_ b).
Proof.
  intros [Hnd Hdom]. unfold size.
  rewrite <- size_dom, Hdom. by apply size_list_to_set.
Qed.

Lemma wf_elem_of b key : wf b → key ∈ order_ b ↔ is_Some (slots_ b !! key).
Proof.
  intros [_ Hdom]. by rewrite <- elem_of_dom, Hdom, elem_of_list_to_set.
Qed.

Lemma wf_new (C : N) : wf (LruBox_new (K:=K) (V:=V) C).
Proof. split; [constructor|]. simpl. by rewrite dom_empty_L. Qed.

(** *** Iterators *)

Lemma front_iter_cons key order : front_iter (key :: order) = {[key]}.
Proof. unfold front_iter. simpl. apply (right_id_L ∅ (∪)). Qed.

Lemma elem_of_front_iter key order :
  key ∈ front_iter order ↔ head order = Some key.
Proof.
  destruct order as [|k order].
  - unfold front_iter. simpl. set_solver.
  - rewrite front_iter_cons, elem_of_singleton. simpl. naive_solver.
Qed.

Lemma iters_front_new (C : N) : iters_front (LruBox_new (K:=K) (V:=V) C).
Proof. done. Qed.

(** [touch] through the iterator of the front key leaves the cache as it
    is: the key is erased from the front and pushed there again. *)
Lemma touch_front b key :
  iters_front b → head (order_ b) = Some key → touch b key = Ok b.
Proof.
  destruct b as [c [|k o] s i]; unfold iters_front; simpl; [done|].
  intros -> [= ->]. unfold touch. simpl.
  rewrite front_iter_cons, decide_True by set_solver.
  by rewrite decide_True.
Qed.

(** [touch] through any other stored iterator is undefined. *)
Lemma touch_stale b key :
  iters_front b → head (order_ b) ≠ Some key → touch b key = Undefined.
Proof.
  intros Hit Hhead. unfold touch. rewrite decide_False; [done|].
  by rewrite Hit, elem_of_front_iter.
Qed.

Lemma wf_touch b key b' :
  wf b → is_Some (slots_ b !! key) → touch b key = Ok b' →
  wf b' ∧ length (order_ b') = length (order_ b) ∧ iters_front b'.
Proof.
  intros Hwf Hsome. pose proof Hwf as [Hnd Hdom].
  apply (wf_elem_of b key Hwf) in Hsome.
  destruct (NoDup_erase key _ Hnd) as [Hnd' Hnotin].
  unfold touch. case_decide; [|done]. intros [= <-].
  split; [split|split]; simpl.
  - by constructor.
  - rewrite Hdom. symmetry. by apply (list_to_set_erase key (order_ b)).
  - by apply length_erase.
  - unfold iters_front. simpl. by rewrite front_iter_cons.
Qed.

(** *** [get] *)

Lemma get_absent b key : slots_ b !! key = None → get b key = Ok (None, b).
Proof. intros Hnone. unfold get. by rewrite Hnone. Qed.

(** A read of the newest key returns its value; nothing moves. *)
Lemma get_front b key value :
  iters_front b → head (order_ b) = Some key → slots_ b !! key = Some value →
  get b key = Ok (Some value, b).
Proof.
  intros Hit Hhead Hsome. unfold get. rewrite Hsome.
  by rewrite touch_front.
Qed.

(** A read of any other cached key uses an invalidated iterator. *)
Lemma get_stale b key :
  iters_front b → is_Some (slots_ b !! key) → head (order_ b) ≠ Some key →
  get b key = Undefined.
Proof.
  intros Hit [v Hsome] Hhead. unfold get. rewrite Hsome.
  by rewrite touch_stale.
Qed.

(** Whenever [get] returns, it returns the stored value and leaves the
    cache as it found it. *)
Lemma get_Ok b key r b' :
  iters_front b → get b key = Ok (r, b') →
  b' = b ∧ r = slots_ b !! key
  ∧ (slots_ b !! key = None ∨ head (order_ b) = Some key).
Proof.
  intros Hit. destruct (slots_ b !! key) as [v|] eqn:E.
  - destruct (decide (head (order_ b) = Some key)) as [Hhead|Hhead].
    + rewrite (get_front b key v) by done. intros [= <- <-]. auto.
    + rewrite get_stale; [done..|by rewrite E|done].
  - rewrite get_absent by done. intros [= <- <-]. auto.
Qed.

(** Whenever [get] returns, on any cache: the value is the stored one
    and no stored entry changed; after a hit the key is at the front. *)
Lemma get_inv b key r b' :
  get b key = Ok (r, b') →
  r = slots_ b !! key ∧ cap_ b' = cap_ b ∧ slots_ b' = slots_ b
  ∧ (r = None → b' = b) ∧ (is_Some r → head (order_ b') = Some key).
Proof.
  unfold get. destruct (slots_ b !! key) as [v|] eqn:E.
  - unfold touch. case_decide; [|done]. simpl. intros [= <- <-]. simpl.
    repeat split; done.
  - intros [= <- <-]. repeat split; done.
Qed.

Lemma wf_get b key r b' :
  wf b → get b key = Ok (r, b') →
  wf b' ∧ length (order_ b') = length (order_ b).
Proof.
  intros Hwf. unfold get. destruct (slots_ b !! key) as [v|] eqn:E.
  - destruct (touch b key) as [b1| |] eqn:Ht; simpl; [|done..].
    intros [= <- <-].
    destruct (wf_touch b key b1 Hwf) as (? & ? & _); [by rewrite E|done|done].
  - by intros [= <- <-].
Qed.

Lemma iters_front_get b key r b' :
  iters_front b → get b key = Ok (r, b') → iters_front b'.
Proof. intros Hit Hget. by destruct (get_Ok b key r b' Hit Hget) as (-> & _). Qed.

Lemma get_not_throws b key : get b key ≠ Throws.
Proof.
  unfold get, touch. destruct (slots_ b !! key); [|done].
  by case_decide.
Qed.

Lemma last_removelast order old :
  last order = Some old → order = removelast order ++ [old].
Proof.
  intros Hlast. destruct (decide (order = [])) as [->|Hne]; [done|].
  rewrite (app_removelast_last old Hne) at 1.
  f_equal. f_equal. rewrite last_lookup in Hlast.
  revert Hlast. clear. induction order as [|x [|y order] IH]; simpl in *.
  - done.
  - by intros [= ->].
  - intros Hl. by apply IH.
Qed.

(** *** [put] *)

(** A [put] of a key that is not cached is defined as soon as the
    capacity is positive. *)
Lemma put_new_defined b key value :
  slots_ b !! key = None → (1 ≤ cap_ b)%N → is_Ok (put b key value).
Proof.
  intros Hnone Hcap. unfold put, is_Ok. rewrite Hnone.
  case_decide as Hfull; [|by eexists].
  destruct (last (order_ b)) eqn:Hlast; [by eexists|].
  apply last_None in Hlast. rewrite Hlast in Hfull. simpl in Hfull. lia.
Qed.

(** A [put] on the newest key replaces its value; nothing moves. *)
Lemma put_front b key value :
  iters_front b → head (order_ b) = Some key → is_Some (slots_ b !! key) →
  put b key value
  = Ok {| cap_ := cap_ b; order_ := order_ b;
          slots_ := <[key := value]> (slots_ b); iters_ := iters_ b |}.
Proof.
  intros Hit Hhead [v Hsome]. unfold put. rewrite Hsome.
  by apply touch_front.
Qed.

(** A [put] on any other cached key uses an invalidated iterator. *)
Lemma put_stale b key value :
  iters_front b → is_Some (slots_ b !! key) → head (order_ b) ≠ Some key →
  put b key value = Undefined.
Proof.
  intros Hit [v Hsome] Hhead. unfold put. rewrite Hsome.
  by apply touch_stale.
Qed.

Lemma put_cap b key value b' : put b key value = Ok b' → cap_ b' = cap_ b.
Proof.
  unfold put. destruct (slots_ b !! key).
  - unfold touch. case_decide; [|done]. by intros [= <-].
  - case_decide; [destruct (last (order_ b))|]; simpl; by intros [= <-].
Qed.

Lemma put_not_throws b key value : put b key value ≠ Throws.
Proof.
  unfold put, touch. destruct (slots_ b !! key); [by case_decide|].
  by case_decide; [destruct (last (order_ b))|].
Qed.

(** After [put], the front key is the only one with a valid iterator. *)
Lemma iters_front_put b key value b' :
  put b key value = Ok b' → iters_front b'.
Proof.
  unfold put, iters_front. destruct (slots_ b !! key).
  - unfold touch. case_decide; [|done]. intros [= <-]. simpl.
    by rewrite front_iter_cons.
  - case_decide; [destruct (last (order_ b))|]; simpl; [|done|];
      intros [= <-]; simpl; by rewrite front_iter_cons.
Qed.

Lemma put_head b key value b' :
  put b key value = Ok b' → head (order_ b') = Some key.
Proof.
  unfold put. destruct (slots_ b !! key).
  - unfold touch. case_decide; [|done]. by intros [= <-].
  - case_decide; [destruct (last (order_ b))|]; simpl; [|done|];
      by intros [= <-].
Qed.

(** After [put], the key reads back the value. *)
Lemma put_lookup b key value b' :
  put b key value = Ok b' → slots_ b' !! key = Some value.
Proof.
  unfold put. destruct (slots_ b !! key) eqn:E.
  - unfold touch. case_decide; [|done]. intros [= <-]. simpl.
    by rewrite lookup_insert_eq.
  - assert (∀ m : gmap K V, emplace key value m !! key = Some value
                            ∨ is_Some (m !! key)) as Hemp.
    { intros m. unfold emplace. destruct (m !! key) eqn:Em; [by right; eexists|].
      left. by rewrite lookup_insert_eq. }
    case_decide; [destruct (last (order_ b)) as [old|]|]; simpl;
      intros [= <-]; simpl.
    + destruct (Hemp (delete old (slots_ b))) as [?|[x Hx]]; [done|].
      apply lookup_delete_Some in Hx as [_ Hx]. congruence.
    + destruct (Hemp (slots_ b)) as [?|[x Hx]]; [done|]. congruence.
Qed.

(** After [put], every entry is the one just written or was there before. *)
Lemma put_lookup_inv b key value b' (k : K) (v : V) :
  put b key value = Ok b' → slots_ b' !! k = Some v →
  (k = key ∧ v = value) ∨ slots_ b !! k = Some v.
Proof.
  unfold put. destruct (slots_ b !! key) eqn:E.
  - unfold touch. case_decide; [|done]. intros [= <-]. simpl.
    rewrite lookup_insert_Some. naive_solver.
  - case_decide; [destruct (last (order_ b)) as [old|]|]; simpl; [|done|];
      intros [= <-]; simpl; unfold emplace.
    + destruct (delete old (slots_ b) !! key) eqn:Ed.
      * rewrite lookup_delete_Some. naive_solver.
      * rewrite lookup_insert_Some, lookup_delete_Some. naive_solver.
    + rewrite E. rewrite lookup_insert_Some. naive_solver.
Qed.

(** [put] preserves the invariant and the capacity bound. *)
Lemma wf_put b key value b' :
  wf b → within_cap b → put b key value = Ok b' → wf b' ∧ within_cap b'.
Proof.
  intros Hwf Hcap. unfold put. destruct (slots_ b !! key) eqn:E.
  - set (b1 := {| cap_ := cap_ b; order_ := order_ b;
                  slots_ := <[key:=value]> (slots_ b); iters_ := iters_ b |}).
    intros Htouch.
    assert (wf b1) as Hwf1.
    { destruct Hwf as [Hnd Hdom]. split; [done|]. simpl.
      rewrite dom_insert_L, Hdom.
      assert (key ∈ order_ b) by (apply (wf_elem_of b key); [done|by rewrite E]).
      set_solver. }
    assert (is_Some (slots_ b1 !! key)) as Hs1
      by (simpl; rewrite lookup_insert_eq; by eexists).
    destruct (wf_touch b1 key b' Hwf1 Hs1 Htouch) as (Hwf' & Hlen & _).
    split; [done|]. unfold within_cap. rewrite Hlen.
    unfold touch in Htouch. case_decide; [|done].
    injection Htouch as <-. done.
  - assert (key ∉ order_ b) as Hnotin.
    { rewrite (wf_elem_of b key Hwf), E. by intros [? ?]. }
    pose proof Hwf as [Hnd Hdom].
    case_decide as Hfull; [destruct (last (order_ b)) as [old|] eqn:Hlast|];
      simpl; [|done|]; intros [= <-].
    + apply last_removelast in Hlast.
      rewrite Hlast in Hnd, Hnotin, Hdom.
      apply NoDup_app in Hnd as (Hnd1 & Hdisj & _).
      assert (old ∉ removelast (order_ b)) as Hold by set_solver.
      unfold emplace. rewrite lookup_delete_ne by set_solver. rewrite E.
      split; [split|]; simpl.
      * constructor; [set_solver|done].
      * rewrite dom_insert_L, dom_delete_L, Hdom, list_to_set_app_L. set_solver.
      * unfold within_cap in *. simpl.
        rewrite Hlast, length_app in Hcap. simpl in Hcap. lia.
    + unfold emplace. rewrite E.
      split; [split|]; simpl.
      * by constructor.
      * by rewrite dom_insert_L, Hdom.
      * unfold within_cap in *. simpl. lia.
Qed.

End LruBoxFacts.

(** ** LruBox: runs of [put] *)

Section LruBoxPuts.
Context {K : Type} `{Countable K} {V : Type}.
Implicit Types (b : LruBox K V) (key old : K) (value : V)
  (kvs rest : list (K * V)).

(** Whenever a run of [put] returns, the invariant and the capacity bound
    hold after it. *)
Lemma put_all_wf kvs b b' :
  wf b → within_cap b → put_all b kvs = Ok b' →
  cap_ b' = cap_ b ∧ wf b' ∧ within_cap b'.
Proof.
  revert b. induction kvs as [|[k v] kvs IH]; intros b Hwf Hcap; simpl.
  - by intros [= <-].
  - destruct (put b k v) as [b1| |] eqn:Hput; simpl; [|done..].
    destruct (wf_put b k v b1 Hwf Hcap Hput) as [Hwf1 Hcap1].
    pose proof (put_cap b k v b1 Hput) as Hc1.
    intros Hrun. destruct (IH b1 Hwf1 Hcap1 Hrun) as (Hc & Hwf' & Hcap').
    split; [congruence|done].
Qed.

(** The capacity invariant: a run of [put] that returns leaves at most
    [C] entries. *)
Lemma put_all_size_le_cap (C : N) kvs b :
  put_all (LruBox_new C) kvs = Ok b → (N.of_nat (size b) ≤ C)%N.
Proof.
  intros Hrun.
  destruct (put_all_wf kvs (LruBox_new C) b) as (Hc & Hwf & Hcap).
  - apply wf_new.
  - unfold within_cap. simpl. lia.
  - done.
  - rewrite (wf_size b Hwf). unfold within_cap in Hcap.
    by rewrite Hc in Hcap.
Qed.

(** A [put] of a new key into a full cache evicts the back of the
    recency order, and only that entry. *)
Lemma put_full_evicts_lru b key value old :
  slots_ b !! key = None →
  (cap_ b ≤ N.of_nat (length (order_ b)))%N →
  last (order_ b) = Some old → old ≠ key →
  put b key value
  = Ok {| cap_ := cap_ b;
          order_ := key :: removelast (order_ b);
          slots_ := <[key := value]> (delete old (slots_ b));
          iters_ := {[key]} |}.
Proof.
  intros Hnone Hfull Hlast Hne. unfold put. rewrite Hnone.
  rewrite decide_True by done. rewrite Hlast. simpl.
  unfold emplace. rewrite lookup_delete_ne by done. by rewrite Hnone.
Qed.

(** A [put] of a new key below capacity evicts nothing. *)
Lemma put_room b key value :
  slots_ b !! key = None →
  (N.of_nat (length (order_ b)) < cap_ b)%N →
  put b key value
  = Ok {| cap_ := cap_ b;
          order_ := key :: order_ b;
          slots_ := <[key := value]> (slots_ b);
          iters_ := {[key]} |}.
Proof.
  intros Hnone Hroom. unfold put. rewrite Hnone.
  rewrite decide_False by lia. simpl.
  unfold emplace. by rewrite Hnone.
Qed.

(** Inserting distinct new keys while there is room stacks them at the
    front of the order. *)
Lemma put_all_room kvs b :
  iters_front b → NoDup kvs.*1 →
  (∀ k, k ∈ kvs.*1 → slots_ b !! k = None) →
  (N.of_nat (length (order_ b) + length kvs) ≤ cap_ b)%N →
  put_all b kvs
  = Ok {| cap_ := cap_ b;
          order_ := reverse kvs.*1 ++ order_ b;
          slots_ := list_to_map kvs ∪ slots_ b;
          iters_ := front_iter (reverse kvs.*1 ++ order_ b) |}.
Proof.
  revert b. induction kvs as [|[k v] kvs IH]; intros b Hit Hnd Hfresh Hcap.
  - simpl. rewrite (left_id_L ∅ (∪)). destruct b. unfold iters_front in Hit.
    simpl in *. by subst.
  - rewrite fmap_cons in Hnd. simpl in Hnd.
    apply NoDup_cons in Hnd as [Hk Hnd].
    simpl in Hcap. simpl put_all.
    rewrite put_room; [|apply Hfresh; rewrite fmap_cons; set_solver|lia].
    simpl. rewrite IH; simpl.
    + rewrite reverse_cons, <- app_assoc. simpl. f_equal. f_equal.
      rewrite <- insert_union_l.
      by rewrite insert_union_r by (by apply not_elem_of_list_to_map_1).
    + unfold iters_front. simpl. by rewrite front_iter_cons.
    + done.
    + intros k' Hk'. rewrite lookup_insert_ne by set_solver.
      apply Hfresh. rewrite fmap_cons. set_solver.
    + lia.
Qed.

Lemma list_to_map_snoc kvs key value :
  key ∉ kvs.*1 →
  list_to_map (M:=gmap K V) (kvs ++ [(key, value)])
  = <[key := value]> (list_to_map kvs).
Proof.
  intros Hfresh. induction kvs as [|[k v] kvs IH]; simpl; [done|].
  rewrite fmap_cons in Hfresh. simpl in Hfresh.
  rewrite IH by set_solver. apply insert_insert_ne. set_solver.
Qed.

End LruBoxPuts.

(** ** LruBox: recency *)

Section LruBoxRecency.
Context {K : Type} `{Countable K} {V : Type}.
Implicit Types (b : LruBox K V) (kv kvN : K * V)
  (kvs rest : list (K * V)).
#[local] Arguments put : simpl never.

Lemma put_all_app kvs1 kvs2 b :
  put_all b (kvs1 ++ kvs2) = b' ← put_all b kvs1; put_all b' kvs2.
Proof.
  revert b. induction kvs1 as [|[k v] kvs1 IH]; intros b; simpl; [done|].
  destruct (put b k v) as [b1| |]; simpl; [apply IH|done..].
Qed.

(** The cache after [C] distinct keys went into an empty cache of
    capacity [C]: nothing was evicted, the first key is at the back. *)
Lemma put_all_fill kv1 rest :
  NoDup (kv1.1 :: rest.*1) →
  put_all (LruBox_new (N.of_nat (S (length rest)))) (kv1 :: rest)
  = Ok {| cap_ := N.of_nat (S (length rest));
          order_ := reverse rest.*1 ++ [kv1.1];
          slots_ := list_to_map (kv1 :: rest);
          iters_ := front_iter (reverse rest.*1 ++ [kv1.1]) |}.
Proof.
  intros Hnd. rewrite put_all_room.
  - simpl. rewrite reverse_cons, app_nil_r.
    by rewrite (right_id_L ∅ (∪)).
  - done.
  - by rewrite fmap_cons.
  - intros k _. apply lookup_empty.
  - simpl. lia.
Qed.



Lemma head_app_elem_of (l1 l2 : list K) (k : K) :
  l1 ≠ [] → head (l1 ++ l2) = Some k → k ∈ l1.
Proof. destruct l1 as [|x l1]; [done|]. intros _ [= ->]. set_solver. Qed.

(** Second scenario at capacity 2 or more: the read of the first key
    goes through the iterator stored when it was put, and every later
    [push_front] invalidated it. *)
Lemma reread_then_put_stale kv1 kv2 rest' kvN :
  NoDup (kv1.1 :: (kv2 :: rest').*1) →
  reread_then_put (N.of_nat (S (length (kv2 :: rest')))) kv1 (kv2 :: rest') kvN
  = Undefined.
Proof.
  intros Hnd. unfold reread_then_put.
  rewrite put_all_fill by done. simpl.
  rewrite get_stale; [done|done| |]; simpl.
  - rewrite lookup_insert_eq. by eexists.
  - intros Hhead. apply NoDup_cons in Hnd as [Hk1 _].
    apply Hk1. rewrite fmap_cons. simpl.
    apply head_app_elem_of in Hhead.
    + rewrite elem_of_reverse in Hhead. exact Hhead.
    + intros Heq. apply (f_equal length) in Heq.
      rewrite length_reverse in Heq. done.
Qed.

End LruBoxRecency.

(** ** LruBox: the statements of the specification *)

Section LruBoxSpec.
Context {K : Type} `{Countable K} {V : Type}.
Implicit Types (b : LruBox K V) (key : K) (value : V)
  (kv kvN : K * V) (rest : list (K * V)).

(** C4. On a cache of capacity 0 the first [put] is not well defined:
    the eviction branch is taken on an empty order and calls [back()]
    and [pop_back()] on the empty deque. *)
Theorem put_capacity_zero_undefined key value :
  put (LruBox_new (K:=K) (V:=V) 0) key value = Undefined.
Proof. unfold put. simpl. by rewrite lookup_empty. Qed.


(** C8. A [get] of a key that is present is undefined unless the key is
    the newest one. Two distinct keys are put into an empty cache of
    capacity [C >= 2]; the first is present with its value, and the first
    [get] on it, hence every run of [get]s on it, is undefined: its
    stored iterator was invalidated by the [push_front] of the second
    [put]. *)
Theorem get_present_key_undefined (C : N) kv kvN :
  (2 ≤ C)%N → kv.1 ≠ kvN.1 →
  ∃ b, put_all (LruBox_new C) [kv; kvN] = Ok b
       ∧ slots_ b !! kv.1 = Some kv.2
       ∧ get b kv.1 = Undefined
       ∧ ∀ n, get_n (S n) b kv.1 = Undefined.
Proof.
  destruct kv as [k1 v1], kvN as [k2 v2]. cbn [fst snd]. intros HC Hne.
  rewrite put_all_room; [|done| | |simpl; lia].
  - eexists. split; [done|]. simpl.
    assert (slots_ {| cap_ := C; order_ := [k2; k1];
                      slots_ := <[k1:=v1]> (<[k2:=v2]> ∅) ∪ (∅ : gmap K V);
                      iters_ := front_iter [k2; k1] |} !! k1 = Some v1) as Hk1.
    { simpl. rewrite (right_id_L ∅ (∪)). by rewrite lookup_insert_eq. }
    assert (get {| cap_ := C; order_ := [k2; k1];
                   slots_ := <[k1:=v1]> (<[k2:=v2]> ∅) ∪ (∅ : gmap K V);
                   iters_ := front_iter [k2; k1] |} k1 = Undefined) as Hget.
    { apply get_stale; [done|by rewrite Hk1|]. simpl. congruence. }
    split; [exact Hk1|]. split; [exact Hget|].
    intros n. cbn [get_n]. by rewrite Hget.
  - simpl. apply NoDup_cons. split; [set_solver|]. apply NoDup_singleton.
  - intros k _. apply lookup_empty.
Qed.

(** C9, amended. A constructor call with a negative [int] does not
    fail: the argument becomes the [size_t] value [z + 2^64], and the
    result is an empty cache of that capacity on which [put] is
    defined. *)
Theorem negative_capacity_wraps (z : Z) :
  INT_MIN ≤ z < 0 →
  ∃ b, LruBox_from_int (K:=K) (V:=V) z = Ok b
       ∧ cap_ b = Z.to_N (z + SIZE_MOD)
       ∧ size b = 0%nat
       ∧ ∀ key value, is_Ok (put b key value).
Proof.
  intros Hz. unfold INT_MIN, SIZE_MOD, SIZE_BITS in *.
  assert (to_size_t z = z + 2 ^ 64) as Hwrap.
  { unfold to_size_t, SIZE_MOD, SIZE_BITS.
    symmetry. apply (Z.mod_unique_pos z (2 ^ 64) (-1)); lia. }
  eexists. split; [done|]. simpl. rewrite Hwrap.
  split; [done|]. split; [done|].
  intros key value. apply put_new_defined; simpl; [apply lookup_empty|lia].
Qed.

End LruBoxSpec.

(** C1. The capacity invariant fails at capacity 0: whatever the keys,
    already the first [put] of a run on an empty cache of capacity 0 is
    undefined, so no cache with [size() <= 0] is returned. *)
Theorem put_run_capacity_zero_undefined {K : Type} `{Countable K} {V : Type}
    (kv : K * V) (kvs : list (K * V)) :
  put_all (LruBox_new 0) (kv :: kvs) = Undefined.
Proof.
  destruct kv as [k v]. cbn [put_all].
  unfold put. cbn [slots_ LruBox_new]. by rewrite lookup_empty.
Qed.



(** Instance of C8: keys 1 and 2 into a cache of capacity 2, then a read
    of key 1. *)
Lemma get_present_key_undefined_witness :
  (2 ≤ 2)%N ∧ (1, 10).1 ≠ (2, 20).1
  ∧ ∃ b : LruBox Z Z,
      put_all (LruBox_new 2) [(1, 10); (2, 20)] = Ok b
      ∧ slots_ b !! 1 = Some 10 ∧ get b 1 = Undefined.
Proof.
  assert (2 ≤ 2)%N as HC by lia.
  assert ((1, 10).1 ≠ (2, 20).1) as Hne by (simpl; lia).
  split; [exact HC|]. split; [exact Hne|].
  destruct (get_present_key_undefined (V:=Z) 2 (1, 10) (2, 20) HC Hne)
    as (b & Hrun & Hk & Hget & _).
  exists b. auto.
Defined.

(** C9 as stated fails: [LruBox(-1)] does not report an error, it is a
    cache of capacity [2^64 - 1] that accepts entries. *)
Lemma negative_capacity_counterexample :
  LruBox_from_int (K:=Z) (V:=Z) (-1) ≠ Throws
  ∧ LruBox_from_int (K:=Z) (V:=Z) (-1)
    = Ok {| cap_ := 18446744073709551615; order_ := []; slots_ := ∅;
            iters_ := ∅ |}
  ∧ (b ← LruBox_from_int (K:=Z) (V:=Z) (-1); b ← put b 1 10;
     r ← get b 1; Ok r.1)
    = Ok (Some 10).
Proof. split; [discriminate|]. split; reflexivity. Qed.

(** Instance of C9, amended, at [-1]. *)
Lemma negative_capacity_wraps_witness :
  INT_MIN ≤ -1 < 0
  ∧ ∃ b : LruBox Z Z, LruBox_from_int (-1) = Ok b
      ∧ cap_ b = Z.to_N (-1 + SIZE_MOD).
Proof.
  assert (INT_MIN ≤ -1 < 0) as Hz by (unfold INT_MIN; lia).
  split; [exact Hz|].
  destruct (negative_capacity_wraps (K:=Z) (V:=Z) (-1) Hz) as (b & Hb & Hcap & _).
  exists b. auto.
Defined.

(** ** Knob selection *)

(** C7. The result-set size and the cheap flag depend on the generation
    threshold only, the batch size on the retrieval threshold only; the
    comparisons are those of IEEE doubles, [a > b] being [b < a]. *)
Theorem pick_knobs_thresholds (budget_ms recent_retrieval_ms recent_gen_ms : float) :
  let k := pick_knobs budget_ms recent_retrieval_ms recent_gen_ms in
  (top_k k, cheap_mode k)
  = (if PrimFloat.ltb (PrimFloat.mul budget_ms c_0_55) recent_gen_ms
     then (6, true) else (10, false))
  ∧ batch k
    = (if PrimFloat.ltb (PrimFloat.mul budget_ms c_0_25) recent_retrieval_ms
       then 16 else 8)
  ∧ (∀ retrieval_ms' : float,
       top_k (pick_knobs budget_ms retrieval_ms' recent_gen_ms) = top_k k
       ∧ cheap_mode (pick_knobs budget_ms retrieval_ms' recent_gen_ms)
         = cheap_mode k)
  ∧ (∀ gen_ms' : float,
       batch (pick_knobs budget_ms recent_retrieval_ms gen_ms') = batch k).
Proof.
  unfold pick_knobs. cbn zeta.
  split; [|split; [|split]].
  - by destruct (PrimFloat.ltb _ recent_gen_ms), (PrimFloat.ltb _ recent_retrieval_ms).
  - by destruct (PrimFloat.ltb _ recent_gen_ms), (PrimFloat.ltb _ recent_retrieval_ms).
  - intros retrieval_ms'.
    by destruct (PrimFloat.ltb _ recent_gen_ms), (PrimFloat.ltb _ recent_retrieval_ms),
      (PrimFloat.ltb _ retrieval_ms').
  - intros gen_ms'.
    by destruct (PrimFloat.ltb _ recent_gen_ms), (PrimFloat.ltb _ recent_retrieval_ms),
      (PrimFloat.ltb _ gen_ms').
Qed.

(** ** Retrieval *)

Lemma unique_after_sorted (l : list Z) (prev : Z) :
  StronglySorted Z.le (prev :: l) →
  StronglySorted Z.lt (prev :: unique_after prev l).
Proof.
  revert prev. induction l as [|x l IH]; intros prev Hsorted; simpl.
  - repeat constructor.
  - apply StronglySorted_inv in Hsorted as [Hsorted_l Hall].
    apply Forall_cons in Hall as [Hle Hall].
    case_decide as Heq.
    + rewrite Heq in Hsorted_l. by apply IH.
    + specialize (IH x Hsorted_l).
      constructor; [done|].
      apply StronglySorted_inv in IH as [_ Hgt].
      constructor; [lia|].
      eapply Forall_impl; [exact Hgt|]. simpl. lia.
Qed.

Lemma unique_sorted (l : list Z) :
  StronglySorted Z.le l → StronglySorted Z.lt (unique l).
Proof.
  destruct l as [|x l]; simpl; [constructor|]. apply unique_after_sorted.
Qed.

Lemma StronglySorted_lt_NoDup (l : list Z) : StronglySorted Z.lt l → NoDup l.
Proof.
  induction 1 as [|x l Hsorted IH Hall]; constructor; [|done].
  intros Hin. rewrite Forall_forall in Hall. specialize (Hall x Hin). lia.
Qed.

Section RetrievalSpec.
Context `{RandomEngine}.

Lemma fake_retrieval_defined q (k : Z) :
  0 ≤ k ≤ INT_MAX →
  fake_retrieval q k
  = Ok (unique (merge_sort Z.le (draw_hits (Z.to_nat k) (rng_seed q) []))).
Proof.
  intros Hk. unfold fake_retrieval, reserve, to_size_t.
  unfold INT_MAX, PTRDIFF_MAX, SIZE_MOD, SIZE_BITS in *.
  rewrite Z.mod_small by lia.
  destruct (Z.ltb_spec (2 ^ 63 - 1) (k * 4)) as [Hlt|Hge]; [lia|done].
Qed.

(** C6. [fake_retrieval] is a function of the text and the size alone,
    and whatever it returns is strictly ascending, hence free of
    duplicates; it does return for every non-negative size. *)
Theorem fake_retrieval_deterministic_ascending q (k : Z) :
  (∀ r1 r2, fake_retrieval q k = r1 → fake_retrieval q k = r2 → r1 = r2)
  ∧ (∀ hits, fake_retrieval q k = Ok hits →
       StronglySorted Z.lt hits ∧ NoDup hits)
  ∧ (0 ≤ k ≤ INT_MAX → is_Ok (fake_retrieval q k)).
Proof.
  split; [congruence|]. split.
  - intros hits. unfold fake_retrieval.
    destruct (reserve 4 (to_size_t k)) as [[]| |]; simpl; [|done..].
    intros [= <-].
    assert (StronglySorted Z.lt
              (unique (merge_sort Z.le (draw_hits (Z.to_nat k) (rng_seed q) []))))
      as Hsorted by (apply unique_sorted, StronglySorted_merge_sort; apply _).
    split; [done|]. by apply StronglySorted_lt_NoDup.
  - intros Hk. rewrite fake_retrieval_defined by done. by eexists.
Qed.

End RetrievalSpec.

Example fake_retrieval_lcg :
  fake_retrieval (H:=lcg_engine) "what is rag latency?" 6
  = Ok [25705; 28479; 64100; 77788; 173305; 185859].
Proof. vm_compute. reflexivity. Qed.

(** ** Context assembly *)

Lemma string_app_nil_r (s : string) : s +:+ "" = s.
Proof.
  induction s as [|a s IH]; [reflexivity|].
  exact (f_equal (String a) IH).
Qed.

Lemma string_app_assoc (s1 s2 s3 : string) :
  (s1 +:+ s2) +:+ s3 = s1 +:+ (s2 +:+ s3).
Proof.
  induction s1 as [|a s1 IH]; [reflexivity|].
  exact (f_equal (String a) IH).
Qed.

(** An identifier that is not cached: its text is fetched and stored. *)
Lemma resolve_miss (c : LruBox Z string) (id : Z) :
  slots_ c !! id = None →
  resolve c id = c' ← put c id (fake_doc_text id); Ok (fake_doc_text id, c').
Proof. intros Hnone. unfold resolve. by rewrite get_absent. Qed.

(** An identifier that is cached, but is not the one resolved last: the
    lookup goes through an invalidated iterator. *)
Lemma resolve_stale (c : LruBox Z string) (id : Z) :
  iters_front c → is_Some (slots_ c !! id) → head (order_ c) ≠ Some id →
  resolve c id = Undefined.
Proof. intros Hit Hsome Hhead. unfold resolve. by rewrite get_stale. Qed.

Lemma resolve_not_throws (c : LruBox Z string) (id : Z) : resolve c id ≠ Throws.
Proof.
  unfold resolve. pose proof (get_not_throws c id) as Hget.
  destruct (get c id) as [[[s|] c1]| |]; simpl; [done| |done..].
  pose proof (put_not_throws c1 id (fake_doc_text id)) as Hput.
  by destruct (put c1 id (fake_doc_text id)).
Qed.

(** An identifier that was resolved is in the cache afterwards, with the
    text that was used for it. *)
Lemma resolve_cached (c c' : LruBox Z string) (id : Z) (piece : string) :
  resolve c id = Ok (piece, c') → slots_ c' !! id = Some piece.
Proof.
  unfold resolve.
  destruct (get c id) as [[got c1]| |] eqn:Hget; simpl; [|done..].
  destruct (get_inv _ _ _ _ Hget) as (-> & _ & Hslots & _).
  destruct (slots_ c !! id) as [s|] eqn:E; simpl.
  - intros [= <- <-]. congruence.
  - destruct (put c1 id (fake_doc_text id)) as [c2| |] eqn:Hput; simpl; [|done..].
    intros [= <- <-]. by apply put_lookup in Hput.
Qed.

Lemma resolve_cap (c c' : LruBox Z string) (id : Z) (piece : string) :
  resolve c id = Ok (piece, c') → cap_ c' = cap_ c.
Proof.
  unfold resolve.
  destruct (get c id) as [[got c1]| |] eqn:Hget; simpl; [|done..].
  destruct (get_inv _ _ _ _ Hget) as (-> & Hc & _).
  destruct (slots_ c !! id) as [s|] eqn:E; simpl.
  - intros [= <- <-]. congruence.
  - destruct (put c1 id (fake_doc_text id)) as [c2| |] eqn:Hput; simpl; [|done..].
    intros [= <- <-]. apply put_cap in Hput. congruence.
Qed.

Lemma resolve_all_app (ids1 ids2 : list Z) (c : LruBox Z string) :
  resolve_all (ids1 ++ ids2) c
  = '(p1, c1) ← resolve_all ids1 c;
    '(p2, c2) ← resolve_all ids2 c1;
    Ok (p1 ++ p2, c2).
Proof.
  revert c. induction ids1 as [|id ids1 IH]; intros c; simpl.
  - by destruct (resolve_all ids2 c) as [[p2 c2]| |].
  - destruct (resolve c id) as [[piece c1]| |]; simpl; [|done..].
    rewrite IH. destruct (resolve_all ids1 c1) as [[p1 c1']| |]; simpl; [|done..].
    by destruct (resolve_all ids2 c1') as [[p2 c2]| |].
Qed.

Lemma resolve_all_not_throws (ids : list Z) (c : LruBox Z string) :
  resolve_all ids c ≠ Throws.
Proof.
  revert c. induction ids as [|id ids IH]; intros c; simpl; [done|].
  pose proof (resolve_not_throws c id) as Hres.
  destruct (resolve c id) as [[piece c1]| |]; simpl; [|done..].
  specialize (IH c1). by destruct (resolve_all ids c1) as [[ps c2]| |].
Qed.

Lemma resolve_all_length (ids : list Z) (c c' : LruBox Z string)
    (pieces : list string) :
  resolve_all ids c = Ok (pieces, c') →
  length pieces = length ids ∧ cap_ c' = cap_ c.
Proof.
  revert c pieces. induction ids as [|id ids IH]; intros c pieces; simpl.
  - by intros [= <- <-].
  - destruct (resolve c id) as [[piece c1]| |] eqn:Hres; simpl; [|done..].
    destruct (resolve_all ids c1) as [[ps c2]| |] eqn:Hall; simpl; [|done..].
    intros [= <- <-]. destruct (IH _ _ Hall) as [Hlen Hc].
    apply resolve_cap in Hres. simpl. split; [lia|congruence].
Qed.

Lemma resolve_clean (c c' : LruBox Z string) (id : Z) (piece : string) :
  clean c → resolve c id = Ok (piece, c') → piece = fake_doc_text id ∧ clean c'.
Proof.
  intros Hclean. unfold resolve.
  destruct (get c id) as [[got c1]| |] eqn:Hget; simpl; [|done..].
  destruct (get_inv _ _ _ _ Hget) as (-> & _ & Hslots & _).
  destruct (slots_ c !! id) as [s|] eqn:E; simpl.
  - intros [= <- <-]. split; [by apply Hclean|].
    intros k v. rewrite Hslots. apply Hclean.
  - destruct (put c1 id (fake_doc_text id)) as [c2| |] eqn:Hput; simpl; [|done..].
    intros [= <- <-]. split; [done|].
    intros k v Hk.
    destruct (put_lookup_inv _ _ _ _ _ _ Hput Hk) as [[-> ->]|Hold]; [done|].
    rewrite Hslots in Hold. by apply Hclean in Hold.
Qed.

Lemma resolve_all_clean (ids : list Z) (c c' : LruBox Z string)
    (pieces : list string) :
  clean c → resolve_all ids c = Ok (pieces, c') →
  pieces = fake_doc_text <$> ids ∧ clean c'.
Proof.
  revert c pieces. induction ids as [|id ids IH]; intros c pieces Hclean; simpl.
  - by intros [= <- <-].
  - destruct (resolve c id) as [[piece c1]| |] eqn:Hres; simpl; [|done..].
    destruct (resolve_all ids c1) as [[ps c2]| |] eqn:Hall; simpl; [|done..].
    intros [= <- <-].
    destruct (resolve_clean _ _ _ _ Hclean Hres) as [-> Hclean1].
    destruct (IH _ _ Hclean1 Hall) as [-> Hclean2]. done.
Qed.

(** Identifiers that are distinct and not cached are all misses:
    resolving them is a run of [put]. *)
Lemma resolve_all_fresh (ids : list Z) (c : LruBox Z string) :
  NoDup ids → (∀ id, id ∈ ids → slots_ c !! id = None) →
  resolve_all ids c
  = (λ c', (fake_doc_text <$> ids, c')) <$> put_all c (doc_entries ids).
Proof.
  revert c. induction ids as [|id ids IH]; intros c Hnd Hfresh; [done|].
  apply NoDup_cons in Hnd as [Hid Hnd].
  cbn [resolve_all doc_entries fmap list_fmap put_all].
  rewrite resolve_miss by (apply Hfresh; set_solver).
  destruct (put c id (fake_doc_text id)) as [c1| |] eqn:Hput; simpl; [|done..].
  rewrite IH; [|done|].
  - fold (doc_entries ids).
    by destruct (put_all c1 (doc_entries ids)) as [c2| |].
  - intros k Hk. destruct (slots_ c1 !! k) as [v|] eqn:E; [|done].
    destruct (put_lookup_inv _ _ _ _ _ _ Hput E) as [[-> _]|Hold]; [done|].
    rewrite Hfresh in Hold by set_solver. done.
Qed.

(** The loop of [build_context]: with [tokens_left >= 0] it resolves the
    first [tokens_left / 40 + 1] identifiers, as far as there are any,
    and appends the fragments of all of them but the last; it is
    undefined exactly when one of these lookups is. *)
Lemma build_context_loop_spec (ids : list Z) (c : LruBox Z string)
    (tokens_left : Z) (stitched : string) :
  0 ≤ tokens_left →
  build_context_loop ids c tokens_left stitched
  = (λ r, (stitched +:+ stitch (take (Z.to_nat (tokens_left / 40)) r.1), r.2))
      <$> resolve_all (take (S (Z.to_nat (tokens_left / 40))) ids) c.
Proof.
  revert c tokens_left stitched.
  induction ids as [|id ids IH]; intros c tokens_left stitched Htok.
  - simpl. by rewrite take_nil, string_app_nil_r.
  - cbn [build_context_loop take resolve_all].
    destruct (resolve c id) as [[piece c1]| |] eqn:Hres; simpl; [|done..].
    unfold INT_MIN.
    destruct (Z.ltb_spec (tokens_left - 40) (- 2 ^ 31)) as [?|_]; [lia|].
    destruct (Z.ltb_spec (tokens_left - 40) 0) as [Hstop|Hgo].
    + assert (tokens_left / 40 = 0) as -> by (apply Z.div_small; lia).
      simpl. by rewrite string_app_nil_r.
    + assert (tokens_left / 40 = (tokens_left - 40) / 40 + 1) as Hdiv.
      { replace tokens_left with ((tokens_left - 40) + 1 * 40) at 1 by lia.
        by rewrite Z.div_add by lia. }
      assert (0 ≤ (tokens_left - 40) / 40) as Hq by (apply Z.div_pos; lia).
      assert (Z.to_nat (tokens_left / 40)
              = S (Z.to_nat ((tokens_left - 40) / 40))) as -> by lia.
      rewrite IH by lia.
      destruct (resolve_all _ c1) as [[pieces c']| |]; simpl; [|done..].
      by rewrite !string_app_assoc.
Qed.

Lemma reserve_budget (budget : Z) :
  0 ≤ budget ≤ INT_MAX → reserve 1 (size_mul (to_size_t budget) 4) = Ok tt.
Proof.
  intros Hb. unfold reserve, size_mul, to_size_t.
  unfold INT_MAX, PTRDIFF_MAX, SIZE_MOD, SIZE_BITS in *.
  rewrite (Z.mod_small budget) by lia. rewrite Z.mod_small by lia.
  destruct (Z.ltb_spec (2 ^ 63 - 1) (budget * 4 * 1)) as [?|_]; [lia|done].
Qed.

Lemma reserve_negative_budget (budget : Z) :
  INT_MIN ≤ budget < 0 → reserve 1 (size_mul (to_size_t budget) 4) = Throws.
Proof.
  intros Hb. unfold reserve, size_mul, to_size_t.
  unfold INT_MIN, PTRDIFF_MAX, SIZE_MOD, SIZE_BITS in *.
  assert (budget mod 2 ^ 64 = budget + 2 ^ 64) as ->
    by (symmetry; apply (Z.mod_unique_pos _ _ (-1)); lia).
  assert ((budget + 2 ^ 64) * 4 mod 2 ^ 64 = 4 * budget + 2 ^ 64) as ->
    by (symmetry; apply (Z.mod_unique_pos _ _ 3); lia).
  destruct (Z.ltb_spec (2 ^ 63 - 1) ((4 * budget + 2 ^ 64) * 1)) as [_|?]; [done|lia].
Qed.

(** [build_context] with a budget [b >= 0], in terms of the lookups it
    makes. *)
Lemma build_context_resolve_all (ids : list Z) (c : LruBox Z string)
    (budget : Z) :
  0 ≤ budget ≤ INT_MAX →
  build_context ids c budget
  = (λ r, (stitch (take (Z.to_nat (budget / 40)) r.1), r.2))
      <$> resolve_all (take (S (Z.to_nat (budget / 40))) ids) c.
Proof.
  intros Hb. unfold build_context. rewrite reserve_budget by done. simpl.
  rewrite build_context_loop_spec by lia.
  by destruct (resolve_all _ c) as [[pieces c']| |].
Qed.

Lemma build_context_inv (ids : list Z) (c c' : LruBox Z string)
    (budget : Z) (out : string) :
  0 ≤ budget ≤ INT_MAX → build_context ids c budget = Ok (out, c') →
  ∃ pieces,
    resolve_all (take (S (Z.to_nat (budget / 40))) ids) c = Ok (pieces, c')
    ∧ out = stitch (take (Z.to_nat (budget / 40)) pieces).
Proof.
  intros Hb. rewrite build_context_resolve_all by done.
  destruct (resolve_all _ c) as [[pieces c1]| |]; simpl; [|done..].
  intros [= <- <-]. by exists pieces.
Qed.

Lemma build_context_not_throws (ids : list Z) (c : LruBox Z string)
    (budget : Z) :
  0 ≤ budget ≤ INT_MAX → build_context ids c budget ≠ Throws.
Proof.
  intros Hb. rewrite build_context_resolve_all by done.
  pose proof (resolve_all_not_throws
                (take (S (Z.to_nat (budget / 40))) ids) c) as Hall.
  by destruct (resolve_all _ c) as [[pieces c1]| |].
Qed.

Lemma doc_entries_keys (ids : list Z) : (doc_entries ids).*1 = ids.
Proof.
  unfold doc_entries. induction ids as [|id ids IH]; [done|].
  rewrite !fmap_cons. simpl. f_equal. exact IH.
Qed.

(** Distinct identifiers that are not cached, on a cache with room for
    all of them: the cache they leave. *)
Lemma resolve_all_room (ids : list Z) (c : LruBox Z string) :
  iters_front c → NoDup ids → (∀ id, id ∈ ids → slots_ c !! id = None) →
  (N.of_nat (length (order_ c) + length ids) ≤ cap_ c)%N →
  resolve_all ids c
  = Ok (fake_doc_text <$> ids,
        {| cap_ := cap_ c;
           order_ := reverse ids ++ order_ c;
           slots_ := list_to_map (doc_entries ids) ∪ slots_ c;
           iters_ := front_iter (reverse ids ++ order_ c) |}).
Proof.
  intros Hit Hnd Hfresh Hroom.
  rewrite resolve_all_fresh by done.
  rewrite put_all_room; rewrite ?doc_entries_keys; try done.
  unfold doc_entries. by rewrite length_fmap.
Qed.

Lemma NoDup_take_1 {A : Type} (n : nat) (l : list A) : NoDup l → NoDup (take n l).
Proof.
  intros Hnd. rewrite <- (take_drop n l) in Hnd.
  by apply NoDup_app in Hnd as (? & _).
Qed.

Lemma elem_of_take_1 {A : Type} (n : nat) (l : list A) (x : A) :
  x ∈ take n l → x ∈ l.
Proof. intros Hin. rewrite <- (take_drop n l). set_solver. Qed.

(** Distinct identifiers that are not cached, on a cache with room for
    those the budget reaches: the text and the cache [build_context]
    returns. *)
Lemma build_context_fresh_room (ids : list Z) (c : LruBox Z string)
    (budget : Z) :
  iters_front c → NoDup ids → (∀ id, id ∈ ids → slots_ c !! id = None) →
  0 ≤ budget ≤ INT_MAX →
  (N.of_nat (length (order_ c)
             + length (take (S (Z.to_nat (budget / 40))) ids)) ≤ cap_ c)%N →
  build_context ids c budget
  = Ok (stitch (fake_doc_text <$> take (Z.to_nat (budget / 40)) ids),
        {| cap_ := cap_ c;
           order_ := reverse (take (S (Z.to_nat (budget / 40))) ids) ++ order_ c;
           slots_ := list_to_map
                       (doc_entries (take (S (Z.to_nat (budget / 40))) ids))
                     ∪ slots_ c;
           iters_ := front_iter
                       (reverse (take (S (Z.to_nat (budget / 40))) ids)
                        ++ order_ c) |}).
Proof.
  intros Hit Hnd Hfresh Hb Hroom. rewrite build_context_resolve_all by done.
  set (k := Z.to_nat (budget / 40)) in *.
  rewrite resolve_all_room; [|done|by apply NoDup_take_1| |].
  - simpl. f_equal. f_equal. f_equal.
    rewrite <- fmap_take, take_take.
    by replace (k `min` S k)%nat with k by lia.
  - intros id Hid. apply Hfresh. by apply elem_of_take_1 in Hid.
  - done.
Qed.

(** The first identifier of the list is cached and is not the newest
    entry: the first lookup of [build_context] is undefined. *)
Lemma build_context_stale (id : Z) (ids : list Z) (c : LruBox Z string)
    (budget : Z) :
  iters_front c → is_Some (slots_ c !! id) → head (order_ c) ≠ Some id →
  0 ≤ budget ≤ INT_MAX →
  build_context (id :: ids) c budget = Undefined.
Proof.
  intros Hit Hsome Hhead Hb. rewrite build_context_resolve_all by done.
  cbn [take resolve_all]. by rewrite resolve_stale.
Qed.

(** C3. An identifier that is looked up while it is cached and a later
    identifier is the newest entry makes the call undefined: no text is
    returned. This happens when an identifier occurs a second time in the
    list (two distinct identifiers, then the first again, a budget that
    reaches the third position), and when a second call asks for
    identifiers that a first call cached. The cache is empty at first and
    has capacity 2 or more. *)
Theorem build_context_cached_id_undefined (id1 id2 : Z) (rest : list Z)
    (C : N) (budget : Z) :
  id1 ≠ id2 → (2 ≤ C)%N → 80 ≤ budget ≤ INT_MAX →
  build_context (id1 :: id2 :: id1 :: rest) (LruBox_new C) budget = Undefined
  ∧ ∃ out c,
      build_context [id1; id2] (LruBox_new C) budget = Ok (out, c)
      ∧ build_context (id1 :: id2 :: rest) c budget = Undefined.
Proof.
  intros Hne HC Hb.
  assert (2 ≤ budget / 40) as Hq by (apply Z.div_le_lower_bound; lia).
  assert (NoDup [id1; id2]) as Hnd
    by (apply NoDup_cons; split; [set_solver|apply NoDup_singleton]).
  split.
  - rewrite build_context_resolve_all by lia.
    destruct (Z.to_nat (budget / 40)) as [|[|k]] eqn:Hk; [lia..|].
    cbn [take]. change (id1 :: id2 :: id1 :: take k rest)
      with ([id1; id2] ++ id1 :: take k rest).
    rewrite resolve_all_app.
    rewrite resolve_all_room; simpl;
      [|done|done|intros id _; apply lookup_empty|lia].
    rewrite resolve_stale; [done|done| |]; simpl.
    + rewrite (right_id_L ∅ (∪)). rewrite lookup_insert_eq. by eexists.
    + congruence.
  - rewrite build_context_fresh_room;
      [|done|done|intros id _; apply lookup_empty|lia|].
    2:{ rewrite length_take. simpl. lia. }
    eexists _, _. split; [done|].
    rewrite take_ge by (simpl; lia).
    apply build_context_stale; simpl; [done| | |lia].
    + rewrite (right_id_L ∅ (∪)). rewrite lookup_insert_eq. by eexists.
    + congruence.
Qed.

(** Instance of C3: the identifiers 1, 2, 1 and the budget [40 * 3 - 1]. *)
Lemma build_context_cached_id_undefined_witness :
  1 ≠ 2 ∧ (2 ≤ 8)%N ∧ 80 ≤ 119 ≤ INT_MAX
  ∧ build_context [1; 2; 1] (LruBox_new 8) 119 = Undefined.
Proof.
  assert (1 ≠ 2) as Hne by lia.
  assert (2 ≤ 8)%N as HC by lia.
  assert (80 ≤ 119 ≤ INT_MAX) as Hb by (unfold INT_MAX; lia).
  split; [exact Hne|]. split; [exact HC|]. split; [exact Hb|].
  destruct (build_context_cached_id_undefined 1 2 [] 8 119 Hne HC Hb)
    as [Hrun _].
  exact Hrun.
Defined.

(** C10. With a negative budget [build_context] throws at [reserve]
    before the loop, whatever the identifiers and the cache: the first
    identifier is not resolved and the cache is not touched. *)
Theorem build_context_negative_budget_throws (ids : list Z)
    (c : LruBox Z string) (budget : Z) :
  INT_MIN ≤ budget < 0 → build_context ids c budget = Throws.
Proof.
  intros Hb. unfold build_context. by rewrite reserve_negative_budget.
Qed.

(** Instance of C10: one identifier, an empty cache, budget [-1]. *)
Lemma build_context_negative_budget_throws_witness :
  INT_MIN ≤ -1 < 0 ∧ build_context [7] (LruBox_new 4) (-1) = Throws.
Proof.
  assert (INT_MIN ≤ -1 < 0) as Hb by (unfold INT_MIN; lia).
  split; [exact Hb|].
  exact (build_context_negative_budget_throws [7] (LruBox_new 4) (-1) Hb).
Defined.

(** ** Orchestrator *)

Section OrchestratorSpec.
Context `{RandomEngine}.

Lemma token_budget_range (cheap : bool) :
  0 ≤ (if cheap then 220 else 320) ≤ INT_MAX.
Proof. unfold INT_MAX. destruct cheap; lia. Qed.

Lemma fake_retrieval_NoDup q (k : Z) (hits : list Z) :
  fake_retrieval q k = Ok hits → NoDup hits.
Proof.
  unfold fake_retrieval.
  destruct (reserve 4 (to_size_t k)) as [[]| |]; simpl; [|done..].
  intros [= <-]. apply StronglySorted_lt_NoDup, unique_sorted.
  apply StronglySorted_merge_sort; apply _.
Qed.

(** A request whose text is not in the retrieval cache, if it returns:
    the identifiers come from [fake_retrieval] and are stored under the
    text. *)
Lemma serve_one_miss_inv q (rc rc' : LruBox string (list Z))
    (bc bc' : LruBox Z string) (knobs : TuneKnobs) (s : Served) :
  slots_ rc !! q = None → serve_one q rc bc knobs = Ok (s, rc', bc') →
  ∃ ids, fake_retrieval q (top_k knobs) = Ok ids
         ∧ put rc q ids = Ok rc'
         ∧ build_context ids bc (if cheap_mode knobs then 220 else 320)
           = Ok (context s, bc')
         ∧ cache_hit s = false ∧ doc_ids s = ids.
Proof.
  intros Hmiss. unfold serve_one. rewrite get_absent by done. simpl.
  destruct (fake_retrieval q (top_k knobs)) as [ids| |]; simpl; [|done..].
  destruct (put rc q ids) as [rc1| |] eqn:Hput; simpl; [|done..].
  destruct (build_context ids bc _) as [[ctx bc1]| |] eqn:Hctx; simpl; [|done..].
  intros [= <- <- <-]. exists ids. repeat split; done.
Qed.

(** A request whose text is in the retrieval cache, if it returns: the
    cached identifiers are used, whatever the knobs. *)
Lemma serve_one_hit_inv q (rc rc' : LruBox string (list Z))
    (bc bc' : LruBox Z string) (knobs : TuneKnobs) (s : Served)
    (ids : list Z) :
  slots_ rc !! q = Some ids → serve_one q rc bc knobs = Ok (s, rc', bc') →
  get rc q = Ok (Some ids, rc')
  ∧ build_context ids bc (if cheap_mode knobs then 220 else 320)
    = Ok (context s, bc')
  ∧ cache_hit s = true ∧ doc_ids s = ids.
Proof.
  intros Hhit. unfold serve_one.
  destruct (get rc q) as [[cached rc1]| |] eqn:Hget; simpl; [|done..].
  destruct (get_inv _ _ _ _ Hget) as (-> & _). rewrite Hhit. simpl.
  destruct (build_context ids bc _) as [[ctx bc1]| |] eqn:Hctx; simpl; [|done..].
  intros [= <- <- <-]. repeat split; done.
Qed.

(** A request whose text is cached, but is not the newest key of the
    retrieval cache: the lookup is undefined. *)
Lemma serve_one_stale q (rc : LruBox string (list Z)) (bc : LruBox Z string)
    (knobs : TuneKnobs) :
  iters_front rc → is_Some (slots_ rc !! q) → head (order_ rc) ≠ Some q →
  serve_one q rc bc knobs = Undefined.
Proof. intros Hit Hsome Hhead. unfold serve_one. by rewrite get_stale. Qed.

Lemma serve_one_not_throws q (rc : LruBox string (list Z))
    (bc : LruBox Z string) (knobs : TuneKnobs) :
  0 ≤ top_k knobs ≤ INT_MAX → serve_one q rc bc knobs ≠ Throws.
Proof.
  intros Hk. unfold serve_one.
  pose proof (get_not_throws rc q) as Hget.
  destruct (get rc q) as [[cached rc1]| |]; simpl; [|done..].
  assert (∀ ids rc2, ('(ctx, block_cache) ←
             build_context ids bc (if cheap_mode knobs then 220 else 320);
           Ok ({| cache_hit := match cached with Some _ => true | None => false end;
                  doc_ids := ids; context := ctx;
                  answer := fake_generate q ctx (cheap_mode knobs) |},
               rc2, block_cache)) ≠ (Throws : outcome (Served * LruBox string (list Z) * LruBox Z string)))
    as Hctx.
  { intros ids rc2.
    pose proof (build_context_not_throws ids bc _ (token_budget_range (cheap_mode knobs))).
    by destruct (build_context ids bc _) as [[ctx bc1]| |]. }
  destruct cached as [ids|]; simpl; [apply Hctx|].
  rewrite fake_retrieval_defined by done. simpl.
  pose proof (put_not_throws rc1 q
    (unique (merge_sort Z.le (draw_hits (Z.to_nat (top_k knobs)) (rng_seed q) []))))
    as Hput.
  destruct (put rc1 q _) as [rc2| |]; simpl; [apply Hctx|done..].
Qed.

(** C5. The same text served twice in a row from empty caches, when the
    retrieval gives two identifiers or more and the fragment cache has
    room for those the first request resolves (at most nine): the first
    request is a miss and stores the identifiers under the text; the
    second finds them, and its first fragment lookup has undefined
    behaviour, since the first identifier is cached and later ones were
    put after it. *)
Theorem serve_one_twice_undefined q (C_retr C_block : N)
    (knobs1 knobs2 : TuneKnobs) (id1 id2 : Z) (ids : list Z) :
  (1 ≤ C_retr)%N → (9 ≤ C_block)%N →
  fake_retrieval q (top_k knobs1) = Ok (id1 :: id2 :: ids) →
  ∃ s1 rc1 bc1,
    serve_one q (LruBox_new C_retr) (LruBox_new C_block) knobs1
    = Ok (s1, rc1, bc1)
    ∧ cache_hit s1 = false
    ∧ slots_ rc1 !! q = Some (id1 :: id2 :: ids)
    ∧ serve_one q rc1 bc1 knobs2 = Undefined.
Proof.
  intros Hrc Hbc Hretr.
  pose proof (fake_retrieval_NoDup _ _ _ Hretr) as Hnd.
  set (budget := if cheap_mode knobs1 then 220 else 320).
  assert (∃ k, Z.to_nat (budget / 40) = S k ∧ (k ≤ 7)%nat) as (k & Hk & Hk7).
  { unfold budget. destruct (cheap_mode knobs1);
      [exists 4%nat|exists 7%nat]; split; (reflexivity || lia). }
  unfold serve_one at 1. rewrite get_absent by apply lookup_empty.
  simpl. rewrite Hretr. simpl.
  rewrite put_room; [|apply lookup_empty|simpl; lia]. simpl.
  fold budget.
  rewrite build_context_fresh_room;
    [|done|done|intros; apply lookup_empty|apply token_budget_range
     |rewrite length_take, Hk; simpl; lia].
  simpl. eexists _, _, _. split; [done|]. simpl.
  split; [done|]. split; [by rewrite lookup_insert_eq|].
  unfold serve_one.
  rewrite (get_front _ q (id1 :: id2 :: ids)); simpl;
    [|unfold iters_front; simpl; by rewrite front_iter_cons|done
     |by rewrite lookup_insert_eq].
  rewrite build_context_stale; [done|done| | |apply token_budget_range].
  - simpl. rewrite Hk. cbn [take doc_entries fmap list_fmap list_to_map].
    rewrite (right_id_L ∅ (∪)). simpl. rewrite lookup_insert_eq. by eexists.
  - simpl. rewrite Hk. cbn [take]. rewrite app_nil_r.
    rewrite reverse_cons. intros Hhead.
    apply head_app_elem_of in Hhead.
    + rewrite elem_of_reverse in Hhead.
      apply NoDup_cons in Hnd as [Hid1 _]. apply Hid1.
      apply elem_of_cons in Hhead as [->|Hin]; [set_solver|].
      apply elem_of_take_1 in Hin. set_solver.
    + intros Heq. apply (f_equal length) in Heq.
      rewrite length_reverse in Heq. done.
Qed.

End OrchestratorSpec.

(** Instance of C5: the caches of [main], the first question of its
    traffic, the knobs of its first request. *)
Lemma serve_one_twice_undefined_witness :
  let q := "what is rag latency?" in
  let knobs := {| top_k := 10; batch := 8; cheap_mode := false |} in
  (1 ≤ 512)%N ∧ (9 ≤ 4096)%N
  ∧ fake_retrieval (H:=lcg_engine) q (top_k knobs)
    = Ok (17055 :: 25705 :: [28479; 64100; 77788; 123712; 163362; 173305;
                              185859; 197772])
  ∧ ∃ s1 rc1 bc1,
      serve_one (H:=lcg_engine) q (LruBox_new 512) (LruBox_new 4096) knobs
      = Ok (s1, rc1, bc1)
      ∧ cache_hit s1 = false
      ∧ serve_one (H:=lcg_engine) q rc1 bc1 knobs = Undefined.
Proof.
  intros q knobs.
  assert (1 ≤ 512)%N as Hrc by lia.
  assert (9 ≤ 4096)%N as Hbc by lia.
  assert (fake_retrieval (H:=lcg_engine) q (top_k knobs)
          = Ok (17055 :: 25705 :: [28479; 64100; 77788; 123712; 163362; 173305;
                                    185859; 197772])) as Hretr
    by (vm_compute; reflexivity).
  split; [exact Hrc|]. split; [exact Hbc|]. split; [exact Hretr|].
  destruct (serve_one_twice_undefined (H:=lcg_engine) q 512 4096 knobs knobs
              _ _ _ Hrc Hbc Hretr) as (s1 & rc1 & bc1 & Hrun & Hhit & _ & Hsecond).
  exists s1, rc1, bc1. auto.
Defined.

Example serve_one_first_request :
  (λ r, (cache_hit r.1.1, doc_ids r.1.1)) <$>
    serve_one (H:=lcg_engine) "what is rag latency?"
      (LruBox_new 512) (LruBox_new 4096) (pick_knobs 40 8 18)
  = Ok (false, [17055; 25705; 28479; 64100; 77788; 123712; 163362; 173305;
                185859; 197772]).
Proof. vm_compute. reflexivity. Qed.

Example serve_one_second_request :
  ('(_, rc, bc) ← serve_one (H:=lcg_engine) "what is rag latency?"
                    (LruBox_new 512) (LruBox_new 4096) (pick_knobs 40 8 18);
   serve_one (H:=lcg_engine) "what is rag latency?" rc bc (pick_knobs 40 8 18))
  = Undefined.
Proof. vm_compute. reflexivity. Qed.

(** Instance of C6 on the example engine. *)
Lemma fake_retrieval_deterministic_ascending_witness :
  0 ≤ 6 ≤ INT_MAX
  ∧ is_Ok (fake_retrieval (H:=lcg_engine) "what is rag latency?" 6)
  ∧ ∀ hits, fake_retrieval (H:=lcg_engine) "what is rag latency?" 6 = Ok hits →
            StronglySorted Z.lt hits ∧ NoDup hits.
Proof.
  assert (0 ≤ 6 ≤ INT_MAX) as Hk by (unfold INT_MAX; lia).
  destruct (fake_retrieval_deterministic_ascending (H:=lcg_engine)
              "what is rag latency?" 6) as (_ & Hasc & Hdef).
  split; [exact Hk|]. split; [exact (Hdef Hk)|exact Hasc].
Defined.

(** * Further properties *)

(** ** LruBox: mixed runs, round trips and frames *)

Section LruBoxMore.
Context {K : Type} `{Countable K} {V : Type}.
Implicit Types (b : LruBox K V) (key old : K) (value : V)
  (ops : list (LruOp K V)).

Lemma run_ops_wf ops b b' :
  wf b → within_cap b → iters_front b → run_ops b ops = Ok b' →
  cap_ b' = cap_ b ∧ wf b' ∧ within_cap b' ∧ iters_front b'.
Proof.
  revert b. induction ops as [|[key|key value] ops IH];
    intros b Hwf Hcap Hit; simpl.
  - by intros [= <-].
  - destruct (get b key) as [[r b1]| |] eqn:Hget; simpl; [|done..].
    destruct (get_Ok b key r b1 Hit Hget) as (-> & _). by apply IH.
  - destruct (put b key value) as [b1| |] eqn:Hput; simpl; [|done..].
    destruct (wf_put b key value b1 Hwf Hcap Hput) as [Hwf1 Hcap1].
    pose proof (put_cap b key value b1 Hput) as Hc1.
    pose proof (iters_front_put b key value b1 Hput) as Hit1.
    intros Hrun. destruct (IH b1 Hwf1 Hcap1 Hit1 Hrun) as (Hc & ?).
    split; [congruence|done].
Qed.

(** X1. Whenever a run of [get] and [put] calls on an empty cache
    returns, in any order and on any keys, the recency order has no
    duplicates, holds exactly the keys of [slots_], and is no longer than
    the capacity; [size()] is its length; and the only stored iterator
    that is still valid is the one of the front key. *)
Theorem run_ops_invariant (C : N) ops b :
  run_ops (LruBox_new C) ops = Ok b →
  NoDup (order_ b)
  ∧ (∀ key, key ∈ order_ b ↔ is_Some (slots_ b !! key))
  ∧ size b = length (order_ b)
  ∧ (N.of_nat (size b) ≤ C)%N
  ∧ iters_ b = front_iter (order_ b).
Proof.
  intros Hrun.
  destruct (run_ops_wf ops (LruBox_new C) b) as (Hc & Hwf & Hcap & Hit).
  - apply wf_new.
  - unfold within_cap. simpl. lia.
  - done.
  - done.
  - split; [apply Hwf|].
    split; [intros key; by apply wf_elem_of|].
    split; [by apply wf_size|]. split; [|done].
    rewrite (wf_size b Hwf). unfold within_cap in Hcap. by rewrite Hc in Hcap.
Qed.

(** X21. When a call is defined. On a cache of positive capacity in
    which the front key is the only one with a valid iterator (every
    cache that calls of [get] and [put] returned is one), [get] and [put]
    are defined exactly on the keys that are not cached and on the front
    key: a hit or an update on any other cached key is undefined. *)
Theorem get_put_defined_iff b key value :
  iters_front b → (1 ≤ cap_ b)%N →
  (is_Ok (get b key) ↔ slots_ b !! key = None ∨ head (order_ b) = Some key)
  ∧ (is_Ok (put b key value)
     ↔ slots_ b !! key = None ∨ head (order_ b) = Some key).
Proof.
  intros Hit Hcap. split; split.
  - intros [[r b'] Hget]. by destruct (get_Ok b key r b' Hit Hget) as (_ & _ & ?).
  - intros Hcase. destruct (slots_ b !! key) as [v|] eqn:E.
    + destruct Hcase as [?|Hhead]; [done|].
      exists (Some v, b). by apply get_front.
    + exists (None, b). by apply get_absent.
  - intros [b' Hput]. destruct (slots_ b !! key) as [v|] eqn:E; [|by left].
    right. destruct (decide (head (order_ b) = Some key)) as [?|Hhead]; [done|].
    rewrite put_stale in Hput; [done..|by rewrite E|done].
  - intros Hcase. destruct (slots_ b !! key) as [v|] eqn:E.
    + destruct Hcase as [?|Hhead]; [done|].
      eexists. apply put_front; [done..|by rewrite E].
    + by apply put_new_defined.
Qed.

(** X25. Reads that are defined are idempotent and change nothing: [n]
    successive [get]s of a key that is not cached return nothing, [n]
    successive [get]s of the front key return its value each time, and
    the cache, hence [size()], is left as it was. *)
Theorem get_n_defined (n : nat) b key :
  iters_front b →
  (slots_ b !! key = None → get_n n b key = Ok (replicate n None, b))
  ∧ (∀ value, head (order_ b) = Some key → slots_ b !! key = Some value →
       get_n n b key = Ok (replicate n (Some value), b)).
Proof.
  intros Hit. split.
  - intros Hnone. induction n as [|n IH]; [done|].
    cbn [get_n]. rewrite get_absent by done. simpl. by rewrite IH.
  - intros value Hhead Hsome. induction n as [|n IH]; [done|].
    cbn [get_n]. rewrite (get_front b key value) by done. simpl.
    by rewrite IH.
Qed.

(** X2. Whenever a [put] returns, whatever the cache was: a [get] of the
    same key returns the value just written and changes nothing, and a
    second [put] on the key replaces the value and nothing else. *)
Theorem put_get_round_trip b key value value' b1 :
  put b key value = Ok b1 →
  get b1 key = Ok (Some value, b1)
  ∧ ∃ b2, put b1 key value' = Ok b2
          ∧ get b2 key = Ok (Some value', b2)
          ∧ order_ b2 = order_ b1
          ∧ ∀ k, k ≠ key → slots_ b2 !! k = slots_ b1 !! k.
Proof.
  intros Hput.
  pose proof (iters_front_put _ _ _ _ Hput) as Hit.
  pose proof (put_head _ _ _ _ Hput) as Hhead.
  pose proof (put_lookup _ _ _ _ Hput) as Hval.
  split; [by apply get_front|].
  eexists. split; [apply put_front; [done..|by rewrite Hval]|].
  split; [|split; [done|]].
  - apply get_front; simpl; [done..|by rewrite lookup_insert_eq].
  - intros k Hk. simpl. by rewrite lookup_insert_ne.
Qed.

(** X3. A [put] on the front key is an update in place: it is defined
    at any capacity, evicts nothing, and leaves [size()], the recency
    order and every other entry as they were. *)
Theorem put_present_updates b key value old_value :
  iters_front b → head (order_ b) = Some key →
  slots_ b !! key = Some old_value →
  ∃ b', put b key value = Ok b'
        ∧ size b' = size b
        ∧ slots_ b' !! key = Some value
        ∧ (∀ k, k ≠ key → slots_ b' !! k = slots_ b !! k)
        ∧ order_ b' = order_ b.
Proof.
  intros Hit Hhead Hsome.
  eexists. split; [apply put_front; [done..|by rewrite Hsome]|]. simpl.
  split; [|split; [|split]].
  - unfold size. simpl. apply map_size_insert_Some. by rewrite Hsome.
  - by rewrite lookup_insert_eq.
  - intros k Hne. by rewrite lookup_insert_ne.
  - done.
Qed.

Lemma put_other_entries b key value b' (k : K) :
  put b key value = Ok b' → k ≠ key →
  slots_ b' !! k = slots_ b !! k
  ∨ (slots_ b' !! k = None
     ∧ slots_ b !! key = None
     ∧ (cap_ b ≤ N.of_nat (length (order_ b)))%N
     ∧ last (order_ b) = Some k).
Proof.
  intros Hput Hne. unfold put in Hput.
  destruct (slots_ b !! key) eqn:E.
  - unfold touch in Hput. case_decide; [|done].
    injection Hput as <-. left. simpl. by rewrite lookup_insert_ne.
  - case_decide as Hfull; [destruct (last (order_ b)) as [old|] eqn:Hlast|];
      simpl in Hput; [|done|]; injection Hput as <-; simpl; unfold emplace.
    + assert (delete old (slots_ b) !! key = None) as ->
        by (rewrite lookup_delete_None; by right).
      rewrite lookup_insert_ne by done.
      destruct (decide (k = old)) as [->|Hold].
      * right. by rewrite lookup_delete_eq.
      * left. by rewrite lookup_delete_ne.
    + rewrite E. left. by rewrite lookup_insert_ne.
Qed.

(** X4. A [put] never changes an entry other than the key written, and
    drops at most one: the back of the recency order, and only when the
    key is new and the cache is full. *)
Theorem put_frame b key value b' (k : K) :
  put b key value = Ok b' → k ≠ key →
  slots_ b' !! k = slots_ b !! k
  ∨ (slots_ b' !! k = None
     ∧ slots_ b !! key = None
     ∧ (cap_ b ≤ N.of_nat (length (order_ b)))%N
     ∧ last (order_ b) = Some k).
Proof. apply put_other_entries. Qed.

End LruBoxMore.

(** ** LruBox: the recency order *)

Section LruBoxOrder.
Context {K : Type} `{Countable K} {V : Type}.
Implicit Types (b : LruBox K V) (key old : K) (value : V)
  (kv kvN : K * V) (kvs : list (K * V)).
#[local] Arguments put : simpl never.

(** [put], when it returns, as an operation on the recency order and on
    the lookups. *)
Lemma put_order_slots b key value b' :
  wf b → within_cap b → put b key value = Ok b' →
  order_ b' = take (N.to_nat (cap_ b)) (key :: erase key (order_ b))
  ∧ ∀ k, slots_ b' !! k
         = if decide (k = key) then Some value
           else if decide (k ∈ order_ b') then slots_ b !! k else None.
Proof.
  intros Hwf Hwithin Hput. pose proof Hwf as [Hnd Hdom].
  unfold within_cap in Hwithin.
  assert (∀ k, k ∉ order_ b → slots_ b !! k = None) as Hout.
  { intros k Hk. apply eq_None_not_Some. by rewrite <- (wf_elem_of b k Hwf). }
  destruct (slots_ b !! key) as [old_value|] eqn:E.
  - assert (key ∈ order_ b) as Hin
      by (apply (wf_elem_of b key Hwf); by rewrite E).
    unfold put in Hput. rewrite E in Hput.
    unfold touch in Hput. case_decide; [|done]. injection Hput as <-. simpl.
    pose proof (length_erase key (order_ b) Hin) as Hlen.
    rewrite take_ge by (simpl; lia).
    split; [done|]. intros k. case_decide as Hk; [subst; by rewrite lookup_insert_eq|].
    rewrite lookup_insert_ne by done.
    case_decide as Hmem; [done|]. apply Hout.
    intros Hk'. apply Hmem. rewrite elem_of_cons. right.
    by rewrite elem_of_erase_ne.
  - assert (key ∉ order_ b) as Hnotin
      by (rewrite (wf_elem_of b key Hwf), E; by intros [? ?]).
    rewrite erase_not_elem by done.
    destruct (decide (cap_ b ≤ N.of_nat (length (order_ b)))%N) as [Hfull|Hroom].
    + destruct (last (order_ b)) as [old|] eqn:Hlast.
      2:{ unfold put in Hput. rewrite E, decide_True, Hlast in Hput by done.
          done. }
      assert (old ≠ key) as Hne.
      { intros ->. apply Hnotin. rewrite last_lookup in Hlast.
        by apply list_elem_of_lookup_2 in Hlast. }
      rewrite (put_full_evicts_lru b key value old) in Hput by done.
      injection Hput as <-. simpl.
      pose proof (last_removelast _ _ Hlast) as Hsplit.
      assert (length (removelast (order_ b)) = pred (N.to_nat (cap_ b))) as Hlen.
      { apply (f_equal length) in Hsplit. rewrite length_app in Hsplit.
        simpl in Hsplit. lia. }
      assert (1 ≤ N.to_nat (cap_ b))%nat as Hpos.
      { apply (f_equal length) in Hsplit. rewrite length_app in Hsplit.
        simpl in Hsplit. lia. }
      assert (take (N.to_nat (cap_ b)) (key :: order_ b)
              = key :: removelast (order_ b)) as ->.
      { destruct (N.to_nat (cap_ b)) as [|n] eqn:Hn; [lia|]. simpl. f_equal.
        rewrite Hsplit at 1. rewrite take_app_length'; [done|]. by rewrite Hlen. }
      split; [done|]. intros k. case_decide as Hk; [subst; by rewrite lookup_insert_eq|].
      rewrite lookup_insert_ne by done.
      rewrite Hsplit in Hnd. apply NoDup_app in Hnd as (_ & Hdisj & _).
      case_decide as Hmem.
      * apply elem_of_cons in Hmem as [?|Hmem]; [done|].
        rewrite lookup_delete_ne; [done|]. intros ->. apply (Hdisj _ Hmem). set_solver.
      * destruct (decide (k = old)) as [->|Hold]; [by rewrite lookup_delete_eq|].
        rewrite lookup_delete_ne by done. apply Hout.
        rewrite Hsplit. set_solver.
    + rewrite put_room in Hput by (done || lia).
      injection Hput as <-. simpl.
      rewrite take_ge by (simpl; lia).
      split; [done|]. intros k. case_decide as Hk; [subst; by rewrite lookup_insert_eq|].
      rewrite lookup_insert_ne by done.
      case_decide as Hmem; [done|]. apply Hout. set_solver.
Qed.

(** X6. On a well-formed cache [put], whenever it returns, is move to
    front with truncation: the new order is the key followed by the old
    order without it, cut to the capacity; the key reads the new value,
    the other keys of the new order read what they read before, and
    nothing else is stored. *)
Theorem put_move_to_front b key value b' :
  wf b → within_cap b → put b key value = Ok b' →
  order_ b' = take (N.to_nat (cap_ b)) (key :: erase key (order_ b))
  ∧ ∀ k, slots_ b' !! k
         = if decide (k = key) then Some value
           else if decide (k ∈ order_ b') then slots_ b !! k else None.
Proof. apply put_order_slots. Qed.

(** New distinct keys put one after the other into a well-formed cache:
    they pile up at the front and push the old order out at the back. *)
Lemma put_all_new_keys kvs b :
  wf b → within_cap b → (1 ≤ cap_ b)%N →
  NoDup kvs.*1 → (∀ k, k ∈ kvs.*1 → slots_ b !! k = None) →
  ∃ b', put_all b kvs = Ok b'
        ∧ wf b' ∧ within_cap b' ∧ cap_ b' = cap_ b
        ∧ order_ b'
          = take (N.to_nat (cap_ b)) (reverse kvs.*1 ++ order_ b)
        ∧ ∀ k, k ∉ kvs.*1 → k ∈ order_ b' → slots_ b' !! k = slots_ b !! k.
Proof.
  revert b. induction kvs as [|[key value] kvs IH];
    intros b Hwf Hwithin Hpos Hnd Hfresh.
  - exists b. simpl. split; [done|]. split; [done|]. split; [done|].
    split; [done|]. split; [|done].
    rewrite take_ge; [done|]. unfold within_cap in Hwithin. lia.
  - rewrite fmap_cons in Hnd, Hfresh. simpl in Hnd, Hfresh.
    apply NoDup_cons in Hnd as [Hkey Hnd].
    destruct (put_new_defined b key value) as [b1 Hput];
      [apply Hfresh; set_solver|done|].
    destruct (put_order_slots b key value b1 Hwf Hwithin Hput)
      as (Horder1 & Hslots1).
    destruct (wf_put b key value b1 Hwf Hwithin Hput) as [Hwf1 Hwithin1].
    pose proof (put_cap b key value b1 Hput) as Hc1.
    assert (key ∉ order_ b) as Hnotin.
    { rewrite (wf_elem_of b key Hwf), Hfresh by set_solver. by intros [? ?]. }
    rewrite erase_not_elem in Horder1 by done.
    destruct (IH b1) as (b' & Hrun & Hwf' & Hwithin' & Hc' & Horder' & Hslots');
      [done|done|lia|done| |].
    { intros k Hk. rewrite Hslots1.
      rewrite decide_False by set_solver. case_decide as Hin; [|done].
      apply Hfresh. set_solver. }
    exists b'. cbn [put_all]. rewrite Hput. simpl. rewrite Hrun.
    split; [done|]. split; [done|]. split; [done|]. split; [congruence|].
    assert (order_ b'
            = take (N.to_nat (cap_ b)) (reverse ((key, value) :: kvs).*1 ++ order_ b))
      as Horder.
    { rewrite Horder', Hc1, Horder1. rewrite fmap_cons, reverse_cons. simpl.
      rewrite <- app_assoc. simpl.
      set (n := N.to_nat (cap_ b)). set (l := key :: order_ b).
      set (r := reverse kvs.*1).
      destruct (decide (length r ≤ n)%nat) as [Hle|Hgt].
      - rewrite !take_app_ge by done. f_equal.
        rewrite take_take. f_equal. lia.
      - rewrite !take_app_le by lia. done. }
    split; [exact Horder|].
    intros k Hk Hin. simpl in Hk.
    rewrite Hslots' by (done || set_solver).
    rewrite Hslots1. rewrite decide_False by set_solver.
    rewrite decide_True; [done|].
    rewrite Horder1. rewrite Horder in Hin. clear -Hin Hk.
    apply elem_of_take in Hin as (i & Hi & Hlt).
    rewrite fmap_cons, reverse_cons in Hi. simpl in Hi.
    rewrite <- app_assoc in Hi. simpl in Hi.
    set (r := reverse kvs.*1) in *.
    destruct (decide (i < length r)%nat) as [Hir|Hir].
    + rewrite lookup_app_l in Hi by done.
      apply list_elem_of_lookup_2 in Hi. unfold r in Hi.
      rewrite elem_of_reverse in Hi. set_solver.
    + rewrite lookup_app_r in Hi by lia.
      apply elem_of_take. exists (i - length r)%nat. split; [done|lia].
Qed.

(** X19. The recency window of a well-formed cache of capacity [C]: a key
    that is the most recent one outlives the insertion of up to [C - 1]
    new distinct keys, with its value, and is gone once [C] or more new
    distinct keys went in. *)
Theorem recency_window b key value kvs :
  wf b → within_cap b → (1 ≤ cap_ b)%N →
  head (order_ b) = Some key → slots_ b !! key = Some value →
  NoDup kvs.*1 → (∀ k, k ∈ kvs.*1 → slots_ b !! k = None) →
  ∃ b', put_all b kvs = Ok b'
        ∧ slots_ b' !! key
          = if decide (N.of_nat (length kvs) < cap_ b)%N then Some value
            else None.
Proof.
  intros Hwf Hwithin Hpos Hhead Hsome Hnd Hfresh.
  destruct (put_all_new_keys kvs b Hwf Hwithin Hpos Hnd Hfresh)
    as (b' & Hrun & Hwf' & _ & _ & Horder & Hslots).
  exists b'. split; [done|].
  assert (key ∉ kvs.*1) as Hkey.
  { intros Hin. specialize (Hfresh key Hin). congruence. }
  destruct (order_ b) as [|x l] eqn:Ho; [done|]. simpl in Hhead.
  injection Hhead as ->.
  assert (key ∉ l) as Hl.
  { destruct Hwf as [Hnd' _]. rewrite Ho in Hnd'. by apply NoDup_cons in Hnd' as [? _]. }
  assert (length (reverse kvs.*1) = length kvs) as Hlen
    by (by rewrite length_reverse, length_fmap).
  case_decide as Hlt.
  - rewrite Hslots; [done..|].
    rewrite Horder. apply elem_of_take. exists (length kvs).
    split; [|lia].
    rewrite lookup_app_r by lia. by rewrite Hlen, Nat.sub_diag.
  - apply eq_None_not_Some. rewrite <- (wf_elem_of b' key Hwf'), Horder.
    intros Hin. apply elem_of_take in Hin as (i & Hi & Hi').
    rewrite lookup_app_l in Hi by lia.
    apply list_elem_of_lookup_2 in Hi. rewrite elem_of_reverse in Hi. done.
Qed.

(** X7. Distinct keys put one after the other into an empty cache of
    capacity [C >= 1]: whatever their number, the cache ends up with
    exactly the last [C] of them (all of them if there are fewer), most
    recent first, each with its value; the iterator of the last key is
    the only valid one. *)
Theorem put_all_keeps_last (C : nat) kvs :
  (1 ≤ C)%nat → NoDup kvs.*1 →
  put_all (LruBox_new (N.of_nat C)) kvs
  = Ok {| cap_ := N.of_nat C;
          order_ := reverse (drop (length kvs - C) kvs).*1;
          slots_ := list_to_map (drop (length kvs - C) kvs);
          iters_ := front_iter (reverse (drop (length kvs - C) kvs).*1) |}.
Proof.
  intros Hpos. induction kvs as [|[k v] kvs IH] using rev_ind; intros Hnd.
  - done.
  - rewrite fmap_app in Hnd. apply NoDup_app in Hnd as (Hnd & Hdisj & _).
    assert (k ∉ kvs.*1) as Hk by (intros Hin; apply (Hdisj _ Hin); set_solver).
    rewrite put_all_app, IH by done. simpl.
    set (d := (length kvs - C)%nat).
    assert (k ∉ (drop d kvs).*1) as Hk'.
    { intros Hin. apply Hk. rewrite <- (take_drop d kvs), fmap_app. set_solver. }
    assert (NoDup (drop d kvs).*1) as Hnd'.
    { rewrite <- (take_drop d kvs), fmap_app in Hnd.
      by apply NoDup_app in Hnd as (_ & _ & ?). }
    rewrite length_app. simpl.
    destruct (decide (length kvs < C)%nat) as [Hlt|Hge].
    + assert (d = 0%nat) as Hd by (unfold d; lia).
      replace (length kvs + 1 - C)%nat with 0%nat by lia.
      rewrite Hd in *. rewrite !drop_0 in *.
      rewrite put_room; simpl.
      * rewrite fmap_app, reverse_app. simpl.
        rewrite front_iter_cons, list_to_map_snoc by done. done.
      * by apply not_elem_of_list_to_map_1.
      * rewrite length_reverse, length_fmap. lia.
    + replace (length kvs + 1 - C)%nat with (S d) by (unfold d; lia).
      destruct (drop d kvs) as [|[x vx] tl] eqn:Hdrop.
      { apply (f_equal length) in Hdrop. rewrite length_drop in Hdrop.
        simpl in Hdrop. unfold d in Hdrop. lia. }
      assert (drop (S d) (kvs ++ [(k, v)]) = tl ++ [(k, v)]) as ->.
      { rewrite drop_app_le by (unfold d; lia).
        replace (S d) with (d + 1)%nat by lia.
        by rewrite <- drop_drop, Hdrop. }
      rewrite fmap_cons in Hk', Hnd'. simpl in Hk', Hnd'.
      apply NoDup_cons in Hnd' as [Hx Hnd'].
      rewrite (put_full_evicts_lru _ _ _ x); simpl.
      * rewrite fmap_app, reverse_app. simpl. rewrite front_iter_cons.
        rewrite reverse_cons, removelast_last.
        rewrite list_to_map_snoc by set_solver.
        rewrite delete_insert_eq.
        rewrite delete_id by (by apply not_elem_of_list_to_map_1). done.
      * rewrite lookup_insert_ne by set_solver.
        apply not_elem_of_list_to_map_1. set_solver.
      * rewrite length_reverse. simpl. rewrite length_fmap.
        apply (f_equal length) in Hdrop. rewrite length_drop in Hdrop.
        simpl in Hdrop. unfold d in Hdrop. lia.
      * by rewrite reverse_cons, last_snoc.
      * set_solver.
Qed.

(** X24. The second scenario of the recency test at capacity 2 or more:
    after [C] distinct keys went into an empty cache of capacity [C], the
    read of the first of them is undefined, so neither the read nor the
    [put] that follows it returns. *)
Theorem reread_then_put_undefined kv kvN (kvs : list (K * V)) kv' :
  NoDup (kv.1 :: (kvN :: kvs).*1) →
  reread_then_put (N.of_nat (S (length (kvN :: kvs)))) kv (kvN :: kvs) kv'
  = Undefined.
Proof. apply reread_then_put_stale. Qed.

End LruBoxOrder.

(** *** Instances *)

(** A cache of capacity 2 holding keys 2 (most recent) and 1. *)
Lemma wf_example :
  let b : LruBox Z Z :=
    {| cap_ := 2; order_ := [2; 1]; slots_ := <[2 := 20]> (<[1 := 10]> ∅);
       iters_ := {[2]} |} in
  wf b ∧ within_cap b ∧ iters_front b.
Proof.
  intros b. split; [split|split].
  - apply (bool_decide_unpack _). vm_compute. exact I.
  - apply (bool_decide_unpack _). vm_compute. exact I.
  - unfold within_cap. simpl. lia.
  - unfold iters_front. simpl. by rewrite front_iter_cons.
Defined.

(** A run mixing misses, hits on the newest key, updates and evictions. *)
Lemma run_ops_example :
  { b : LruBox Z Z
  | run_ops (LruBox_new 2)
      [OpPut 1 10; OpGet 7; OpPut 2 20; OpGet 2; OpPut 3 30; OpPut 3 31]
    = Ok b }.
Proof. eexists. vm_compute. reflexivity. Defined.

(** Instance of X1. *)
Lemma run_ops_invariant_witness :
  ∃ b : LruBox Z Z,
    run_ops (LruBox_new 2)
      [OpPut 1 10; OpGet 7; OpPut 2 20; OpGet 2; OpPut 3 30; OpPut 3 31]
    = Ok b
    ∧ NoDup (order_ b) ∧ (N.of_nat (size b) ≤ 2)%N
    ∧ iters_ b = front_iter (order_ b).
Proof.
  destruct run_ops_example as [b Hrun].
  exists b. split; [exact Hrun|].
  destruct (run_ops_invariant (K:=Z) (V:=Z) 2 _ b Hrun)
    as (Hnd & _ & _ & Hsize & Hit).
  auto.
Defined.

(** Instance of X21 on the cache of [wf_example]: key 1 is cached and is
    not the front key. *)
Lemma get_put_defined_iff_witness :
  let b : LruBox Z Z :=
    {| cap_ := 2; order_ := [2; 1]; slots_ := <[2 := 20]> (<[1 := 10]> ∅);
       iters_ := {[2]} |} in
  iters_front b ∧ (1 ≤ cap_ b)%N
  ∧ (is_Ok (get b 1) ↔ slots_ b !! 1 = None ∨ head (order_ b) = Some 1)
  ∧ (is_Ok (put b 1 11) ↔ slots_ b !! 1 = None ∨ head (order_ b) = Some 1).
Proof.
  intros b. pose proof wf_example as (_ & _ & Hit).
  assert (1 ≤ cap_ b)%N as Hcap by (simpl; lia).
  split; [exact Hit|]. split; [exact Hcap|].
  exact (get_put_defined_iff b 1 11 Hit Hcap).
Defined.

(** Instance of X25 on the cache of [wf_example]: three reads of the
    front key. *)
Lemma get_n_defined_witness :
  let b : LruBox Z Z :=
    {| cap_ := 2; order_ := [2; 1]; slots_ := <[2 := 20]> (<[1 := 10]> ∅);
       iters_ := {[2]} |} in
  iters_front b ∧ head (order_ b) = Some 2 ∧ slots_ b !! 2 = Some 20
  ∧ get_n 3 b 2 = Ok ([Some 20; Some 20; Some 20], b).
Proof.
  intros b. pose proof wf_example as (_ & _ & Hit).
  assert (head (order_ b) = Some 2) as Hhead by reflexivity.
  assert (slots_ b !! 2 = Some 20) as Hsome by reflexivity.
  split; [exact Hit|]. split; [exact Hhead|]. split; [exact Hsome|].
  destruct (get_n_defined 3 b 2 Hit) as [_ Hfront].
  exact (Hfront 20 Hhead Hsome).
Defined.

(** Instance of X2 on the cache of [wf_example]. *)
Lemma put_get_round_trip_witness :
  let b : LruBox Z Z :=
    {| cap_ := 2; order_ := [2; 1]; slots_ := <[2 := 20]> (<[1 := 10]> ∅);
       iters_ := {[2]} |} in
  let b1 : LruBox Z Z :=
    {| cap_ := 2; order_ := [3; 2];
       slots_ := <[3 := 30]> (delete 1 (<[2 := 20]> (<[1 := 10]> ∅)));
       iters_ := {[3]} |} in
  put b 3 30 = Ok b1
  ∧ get b1 3 = Ok (Some 30, b1)
  ∧ ∃ b2, put b1 3 31 = Ok b2 ∧ get b2 3 = Ok (Some 31, b2).
Proof.
  intros b b1. assert (put b 3 30 = Ok b1) as Hput by reflexivity.
  split; [exact Hput|].
  destruct (put_get_round_trip b 3 30 31 b1 Hput)
    as (Hget & b2 & Hput2 & Hget2 & _).
  split; [exact Hget|]. exists b2. auto.
Defined.

(** Instance of X3: key 2 of [wf_example] is rewritten. *)
Lemma put_present_updates_witness :
  let b : LruBox Z Z :=
    {| cap_ := 2; order_ := [2; 1]; slots_ := <[2 := 20]> (<[1 := 10]> ∅);
       iters_ := {[2]} |} in
  iters_front b ∧ head (order_ b) = Some 2 ∧ slots_ b !! 2 = Some 20
  ∧ ∃ b', put b 2 21 = Ok b' ∧ size b' = size b
          ∧ slots_ b' !! 2 = Some 21 ∧ order_ b' = order_ b.
Proof.
  intros b. pose proof wf_example as (_ & _ & Hit).
  assert (head (order_ b) = Some 2) as Hhead by reflexivity.
  assert (slots_ b !! 2 = Some 20) as Hsome by reflexivity.
  split; [exact Hit|]. split; [exact Hhead|]. split; [exact Hsome|].
  destruct (put_present_updates b 2 21 20 Hit Hhead Hsome)
    as (b' & Hput & Hsize & Hval & _ & Horder).
  exists b'. auto.
Defined.

(** Instance of X4: key 3 enters the full cache of [wf_example]; key 2
    keeps its value and key 1, the back of the order, is dropped. *)
Lemma put_frame_witness :
  let b : LruBox Z Z :=
    {| cap_ := 2; order_ := [2; 1]; slots_ := <[2 := 20]> (<[1 := 10]> ∅);
       iters_ := {[2]} |} in
  let b' : LruBox Z Z :=
    {| cap_ := 2; order_ := [3; 2];
       slots_ := <[3 := 30]> (delete 1 (<[2 := 20]> (<[1 := 10]> ∅)));
       iters_ := {[3]} |} in
  put b 3 30 = Ok b' ∧ 2 ≠ 3
  ∧ (slots_ b' !! 2 = slots_ b !! 2
     ∨ (slots_ b' !! 2 = None ∧ slots_ b !! 3 = None
        ∧ (cap_ b ≤ N.of_nat (length (order_ b)))%N
        ∧ last (order_ b) = Some 2)).
Proof.
  intros b b'. assert (put b 3 30 = Ok b') as Hput by reflexivity.
  assert (2 ≠ 3) as Hne by lia.
  split; [exact Hput|]. split; [exact Hne|].
  exact (put_frame b 3 30 b' 2 Hput Hne).
Defined.

(** Instance of X6: key 3 enters the full cache of [wf_example]. *)
Lemma put_move_to_front_witness :
  let b : LruBox Z Z :=
    {| cap_ := 2; order_ := [2; 1]; slots_ := <[2 := 20]> (<[1 := 10]> ∅);
       iters_ := {[2]} |} in
  let b' : LruBox Z Z :=
    {| cap_ := 2; order_ := [3; 2];
       slots_ := <[3 := 30]> (delete 1 (<[2 := 20]> (<[1 := 10]> ∅)));
       iters_ := {[3]} |} in
  wf b ∧ within_cap b ∧ put b 3 30 = Ok b'
  ∧ order_ b' = take (N.to_nat (cap_ b)) (3 :: erase 3 (order_ b)).
Proof.
  intros b b'. pose proof wf_example as (Hwf & Hwithin & _).
  assert (put b 3 30 = Ok b') as Hput by reflexivity.
  split; [exact Hwf|]. split; [exact Hwithin|]. split; [exact Hput|].
  destruct (put_move_to_front b 3 30 b' Hwf Hwithin Hput) as (Horder & _).
  exact Horder.
Defined.

(** Instance of X7: five keys into a cache of capacity 2. *)
Lemma put_all_keeps_last_witness :
  (1 ≤ 2)%nat
  ∧ NoDup [(1, 10); (2, 20); (3, 30); (4, 40); (5, 50)].*1
  ∧ put_all (LruBox_new (K:=Z) (V:=Z) 2)
      [(1, 10); (2, 20); (3, 30); (4, 40); (5, 50)]
    = Ok {| cap_ := 2; order_ := [5; 4];
            slots_ := list_to_map [(4, 40); (5, 50)];
            iters_ := front_iter [5; 4] |}.
Proof.
  assert (1 ≤ 2)%nat as Hpos by lia.
  assert (NoDup [(1, 10); (2, 20); (3, 30); (4, 40); (5, 50)].*1) as Hnd
    by (apply (bool_decide_unpack _); vm_compute; exact I).
  split; [exact Hpos|]. split; [exact Hnd|].
  exact (put_all_keeps_last (K:=Z) (V:=Z) 2
           [(1, 10); (2, 20); (3, 30); (4, 40); (5, 50)] Hpos Hnd).
Defined.

(** Instance of X19: key 2 of [wf_example] is the most recent one; one
    new key leaves it in, two new keys push it out. *)
Lemma recency_window_witness :
  let b : LruBox Z Z :=
    {| cap_ := 2; order_ := [2; 1]; slots_ := <[2 := 20]> (<[1 := 10]> ∅);
       iters_ := {[2]} |} in
  wf b ∧ within_cap b ∧ (1 ≤ cap_ b)%N
  ∧ head (order_ b) = Some 2 ∧ slots_ b !! 2 = Some 20
  ∧ NoDup [(3, 30); (4, 40)].*1
  ∧ (∀ k, k ∈ [(3, 30); (4, 40)].*1 → slots_ b !! k = None)
  ∧ ∃ b', put_all b [(3, 30); (4, 40)] = Ok b' ∧ slots_ b' !! 2 = None.
Proof.
  intros b. pose proof wf_example as (Hwf & Hwithin & _).
  assert (1 ≤ cap_ b)%N as Hcap by (simpl; lia).
  assert (head (order_ b) = Some 2) as Hhead by reflexivity.
  assert (slots_ b !! 2 = Some 20) as Hsome by reflexivity.
  assert (NoDup [(3, 30); (4, 40)].*1) as Hnd
    by (apply (bool_decide_unpack _); vm_compute; exact I).
  assert (∀ k, k ∈ [(3, 30); (4, 40)].*1 → slots_ b !! k = None) as Hfresh.
  { intros k Hk. simpl in Hk.
    apply elem_of_cons in Hk as [->|Hk]; [reflexivity|].
    apply elem_of_cons in Hk as [->|Hk]; [reflexivity|].
    by apply elem_of_nil in Hk. }
  split; [exact Hwf|]. split; [exact Hwithin|]. split; [exact Hcap|].
  split; [exact Hhead|]. split; [exact Hsome|]. split; [exact Hnd|].
  split; [exact Hfresh|].
  destruct (recency_window b 2 20 [(3, 30); (4, 40)]
              Hwf Hwithin Hcap Hhead Hsome Hnd Hfresh) as (b' & Hrun & Hgone).
  exists b'. split; [exact Hrun|]. exact Hgone.
Defined.

(** Instance of X24: keys 1 and 2 into a cache of capacity 2, a read of
    key 1, then key 3. *)
Lemma reread_then_put_undefined_witness :
  NoDup ((1, 10).1 :: [(2, 20)].*1)
  ∧ reread_then_put (V:=Z) 2 (1, 10) [(2, 20)] (3, 30) = Undefined.
Proof.
  assert (NoDup ((1, 10).1 :: [(2, 20)].*1)) as Hnd
    by (apply (bool_decide_unpack _); vm_compute; exact I).
  split; [exact Hnd|].
  exact (reread_then_put_undefined (V:=Z) (1, 10) (2, 20) [] (3, 30) Hnd).
Defined.

(** ** Retrieval: size and content of the result *)

Lemma elem_of_unique_after (prev x : Z) (l : list Z) :
  (x ∈ unique_after prev l → x ∈ l)
  ∧ (x ∈ l → x = prev ∨ x ∈ unique_after prev l).
Proof.
  revert prev. induction l as [|y l IH]; intros prev; simpl.
  - split; [done|]. by intros ?%elem_of_nil.
  - case_decide as Hy.
    + subst y. destruct (IH prev) as [IH1 IH2]. split.
      * intros Hin. right. by apply IH1.
      * intros [->|Hin]%elem_of_cons; [by left|by apply IH2].
    + destruct (IH y) as [IH1 IH2]. split.
      * intros [->|Hin]%elem_of_cons; [by left|]. right. by apply IH1.
      * intros [->|Hin]%elem_of_cons; [right; by left|].
        right. destruct (IH2 Hin) as [->|?]; [by left|by right].
Qed.

Lemma elem_of_unique (x : Z) (l : list Z) : x ∈ unique l ↔ x ∈ l.
Proof.
  destruct l as [|y l]; simpl; [done|].
  destruct (elem_of_unique_after y x l) as [H1 H2].
  rewrite !elem_of_cons. naive_solver.
Qed.

Lemma length_unique_after (prev : Z) (l : list Z) :
  (length (unique_after prev l) ≤ length l)%nat.
Proof.
  revert prev. induction l as [|y l IH]; intros prev; simpl; [done|].
  case_decide; simpl; [specialize (IH prev)|specialize (IH y)]; lia.
Qed.

Lemma length_unique (l : list Z) : (length (unique l) ≤ length l)%nat.
Proof.
  destruct l as [|y l]; simpl; [done|].
  pose proof (length_unique_after y l). lia.
Qed.

Section RetrievalMore.
Context `{RandomEngine}.

Lemma length_draw_hits (n : nat) (rng : rng_state) (hits : list Z) :
  length (draw_hits n rng hits) = (n + length hits)%nat.
Proof.
  revert rng hits. induction n as [|n IH]; intros rng hits; simpl; [done|].
  destruct (rng_pick rng) as [v rng']. rewrite IH, length_app. simpl. lia.
Qed.

Lemma Forall_draw_hits (P : Z → Prop) (n : nat) (rng : rng_state)
    (hits : list Z) :
  (∀ g, P (rng_pick g).1) → Forall P hits → Forall P (draw_hits n rng hits).
Proof.
  intros Hpick. revert rng hits.
  induction n as [|n IH]; intros rng hits Hhits; simpl; [done|].
  pose proof (Hpick rng) as Hv. destruct (rng_pick rng) as [v rng'].
  apply IH. apply Forall_app. split; [done|]. by constructor.
Qed.

(** X8. For a size [k >= 0], [fake_retrieval] returns at most [k]
    identifiers, none at all only for [k = 0]; they are exactly the values
    drawn from the engine, so they lie in the range of the distribution
    whenever every draw does. *)
Theorem fake_retrieval_content q (k : Z) :
  0 ≤ k ≤ INT_MAX →
  ∃ hits, fake_retrieval q k = Ok hits
          ∧ (length hits ≤ Z.to_nat k)%nat
          ∧ (∀ x, x ∈ hits ↔ x ∈ draw_hits (Z.to_nat k) (rng_seed q) [])
          ∧ (1 ≤ k → hits ≠ [])
          ∧ ((∀ g, 0 ≤ (rng_pick g).1 ≤ 200000) →
             Forall (λ x, 0 ≤ x ≤ 200000) hits).
Proof.
  intros Hk. rewrite fake_retrieval_defined by done.
  set (draws := draw_hits (Z.to_nat k) (rng_seed q) []).
  assert (∀ x, x ∈ unique (merge_sort Z.le draws) ↔ x ∈ draws) as Helem.
  { intros x. by rewrite elem_of_unique, merge_sort_Permutation. }
  eexists. split; [done|]. split; [|split; [done|split]].
  - etrans; [apply length_unique|].
    rewrite merge_sort_Permutation. unfold draws.
    rewrite length_draw_hits. simpl. lia.
  - intros Hpos Hnil.
    assert (length draws = Z.to_nat k) as Hlen
      by (unfold draws; rewrite length_draw_hits; simpl; lia).
    destruct draws as [|x draws'] eqn:Hd; [simpl in Hlen; lia|].
    assert (x ∈ unique (merge_sort Z.le (x :: draws'))) as Hin
      by (apply Helem; by left).
    rewrite Hnil in Hin. by apply elem_of_nil in Hin.
  - intros Hrange. apply Forall_forall. intros x Hx. apply Helem in Hx.
    assert (Forall (λ x, 0 ≤ x ≤ 200000) draws) as Hall
      by (by apply Forall_draw_hits).
    rewrite Forall_forall in Hall. by apply Hall.
Qed.

(** X9. The edges of [fake_retrieval]: a negative size makes
    [hits.reserve] throw, whatever the text; the size 0 gives the empty
    list. *)
Theorem fake_retrieval_edges q (k : Z) :
  (INT_MIN ≤ k < 0 → fake_retrieval q k = Throws)
  ∧ (k = 0 → fake_retrieval q k = Ok []).
Proof.
  split.
  - intros Hk. unfold fake_retrieval, reserve, to_size_t.
    unfold INT_MIN, PTRDIFF_MAX, SIZE_MOD, SIZE_BITS in *.
    assert (k mod 2 ^ 64 = k + 2 ^ 64) as ->
      by (symmetry; apply (Z.mod_unique_pos _ _ (-1)); lia).
    destruct (Z.ltb_spec (2 ^ 63 - 1) ((k + 2 ^ 64) * 4)) as [_|?]; [done|lia].
  - intros ->. reflexivity.
Qed.

End RetrievalMore.

(** Instance of X8 on the example engine. *)
Lemma fake_retrieval_content_witness :
  0 ≤ 6 ≤ INT_MAX
  ∧ ∃ hits, fake_retrieval (H:=lcg_engine) "what is rag latency?" 6 = Ok hits
            ∧ (length hits ≤ 6)%nat ∧ hits ≠ [].
Proof.
  assert (0 ≤ 6 ≤ INT_MAX) as Hk by (unfold INT_MAX; lia).
  split; [exact Hk|].
  destruct (fake_retrieval_content (H:=lcg_engine) "what is rag latency?" 6 Hk)
    as (hits & Hrun & Hlen & _ & Hne & _).
  exists hits. split; [exact Hrun|]. split; [exact Hlen|]. apply Hne. lia.
Defined.

(** Instance of X9 on the example engine. *)
Lemma fake_retrieval_edges_witness :
  INT_MIN ≤ -3 < 0
  ∧ fake_retrieval (H:=lcg_engine) "what is rag latency?" (-3) = Throws.
Proof.
  assert (INT_MIN ≤ -3 < 0) as Hk by (unfold INT_MIN; lia).
  split; [exact Hk|].
  destruct (fake_retrieval_edges (H:=lcg_engine) "what is rag latency?" (-3))
    as [Hneg _].
  exact (Hneg Hk).
Defined.

(** ** Context assembly: fragments and cache invariants *)

Lemma string_length_app (s1 s2 : string) :
  String.length (s1 +:+ s2) = (String.length s1 + String.length s2)%nat.
Proof.
  induction s1 as [|a s1 IH]; [reflexivity|].
  exact (f_equal S IH).
Qed.

Lemma string_app_inv_r (s1 s2 t : string) : s1 +:+ t = s2 +:+ t → s1 = s2.
Proof.
  revert s2. induction s1 as [|a s1 IH]; intros [|a' s2] Heq.
  - done.
  - apply (f_equal String.length) in Heq.
    rewrite !string_length_app in Heq. simpl in Heq. lia.
  - apply (f_equal String.length) in Heq.
    rewrite !string_length_app in Heq. simpl in Heq. lia.
  - assert (String a (s1 +:+ t) = String a' (s2 +:+ t)) as Hcons by exact Heq.
    injection Hcons as -> Htail. f_equal. by apply IH.
Qed.

(** X10. Different documents have different fragments: [fake_doc_text]
    is injective. *)
Theorem fake_doc_text_inj (id1 id2 : Z) :
  id1 ≠ id2 → fake_doc_text id1 ≠ fake_doc_text id2.
Proof.
  unfold fake_doc_text. intros Hne Heq. apply Hne.
  apply (inj (String.app "Doc#")) in Heq.
  apply string_app_inv_r in Heq. by apply (inj pretty) in Heq.
Qed.

Section LruBoxFresh.
Context {K : Type} `{Countable K} {V : Type}.
Implicit Types (b : LruBox K V) (key : K) (value : V) (kvs : list (K * V)).

(** A run of [put] on distinct keys that are not cached is defined on a
    cache of positive capacity. *)
Lemma put_all_fresh_defined kvs b :
  NoDup kvs.*1 → (∀ k, k ∈ kvs.*1 → slots_ b !! k = None) →
  (1 ≤ cap_ b)%N → is_Ok (put_all b kvs).
Proof.
  revert b. induction kvs as [|[key value] kvs IH]; intros b Hnd Hfresh Hcap.
  - by exists b.
  - rewrite fmap_cons in Hnd, Hfresh. simpl in Hnd, Hfresh.
    apply NoDup_cons in Hnd as [Hkey Hnd].
    destruct (put_new_defined b key value) as [b1 Hput];
      [apply Hfresh; set_solver|done|].
    simpl. rewrite Hput. simpl. apply IH; [done| |].
    + intros k Hk. destruct (slots_ b1 !! k) as [v|] eqn:E; [|done].
      destruct (put_lookup_inv _ _ _ _ _ _ Hput E) as [[-> _]|Hold]; [done|].
      rewrite Hfresh in Hold by set_solver. done.
    + by rewrite (put_cap _ _ _ _ Hput).
Qed.

(** After a run of [put], every entry was written by the run or was
    there before. *)
Lemma put_all_lookup_inv kvs b b' (k : K) (v : V) :
  put_all b kvs = Ok b' → slots_ b' !! k = Some v →
  (k, v) ∈ kvs ∨ slots_ b !! k = Some v.
Proof.
  revert b. induction kvs as [|[key value] kvs IH]; intros b; simpl.
  - intros [= <-]. by right.
  - destruct (put b key value) as [b1| |] eqn:Hput; simpl; [|done..].
    intros Hrun Hk. destruct (IH b1 Hrun Hk) as [Hin|Hold].
    + left. set_solver.
    + destruct (put_lookup_inv _ _ _ _ _ _ Hput Hold) as [[-> ->]|?].
      * left. set_solver.
      * by right.
Qed.

Lemma put_all_last kvs b b' key value :
  put_all b (kvs ++ [(key, value)]) = Ok b' → slots_ b' !! key = Some value.
Proof.
  rewrite put_all_app. destruct (put_all b kvs) as [b1| |]; simpl; [|done..].
  destruct (put b1 key value) as [b2| |] eqn:Hput; simpl; [|done..].
  intros [= <-]. by apply put_lookup in Hput.
Qed.

Lemma put_size b b' key value :
  wf b → within_cap b → put b key value = Ok b' →
  (size b ≤ size b' ≤ S (size b))%nat.
Proof.
  intros Hwf Hwithin Hput.
  destruct (wf_put b key value b' Hwf Hwithin Hput) as [Hwf' _].
  rewrite (wf_size b Hwf), (wf_size b' Hwf').
  revert Hput. unfold put. destruct (slots_ b !! key) eqn:E.
  - unfold touch. case_decide; [|done]. intros [= <-]. simpl.
    assert (key ∈ order_ b) as Hin
      by (apply (wf_elem_of b key Hwf); by rewrite E).
    rewrite (length_erase key _ Hin). lia.
  - case_decide; [destruct (last (order_ b)) as [old|] eqn:Hlast|]; simpl;
      [|done|]; intros [= <-]; simpl; [|lia].
    apply last_removelast in Hlast. apply (f_equal length) in Hlast.
    rewrite length_app in Hlast. simpl in Hlast. lia.
Qed.

End LruBoxFresh.

Lemma resolve_wf (c c' : LruBox Z string) (id : Z) (piece : string) :
  wf c → within_cap c → resolve c id = Ok (piece, c') →
  wf c' ∧ within_cap c' ∧ (size c ≤ size c' ≤ S (size c))%nat.
Proof.
  intros Hwf Hwithin. unfold resolve.
  destruct (get c id) as [[got c1]| |] eqn:Hget; simpl; [|done..].
  destruct (wf_get _ _ _ _ Hwf Hget) as [Hwf1 Hlen].
  destruct (get_inv _ _ _ _ Hget) as (_ & Hc & Hslots & _).
  assert (within_cap c1) as Hwithin1
    by (unfold within_cap in *; by rewrite Hlen, Hc).
  assert (size c1 = size c) as Hsize by (unfold size; by rewrite Hslots).
  destruct got as [s|]; simpl.
  - intros [= <- <-]. split; [done|]. split; [done|]. lia.
  - destruct (put c1 id (fake_doc_text id)) as [c2| |] eqn:Hput; simpl; [|done..].
    intros [= <- <-].
    destruct (wf_put c1 id (fake_doc_text id) c2) as [? ?]; [done..|].
    pose proof (put_size _ _ _ _ Hwf1 Hwithin1 Hput).
    split; [done|]. split; [done|]. lia.
Qed.

Lemma resolve_all_wf (ids : list Z) (c c' : LruBox Z string)
    (pieces : list string) :
  wf c → within_cap c → resolve_all ids c = Ok (pieces, c') →
  wf c' ∧ within_cap c' ∧ (size c ≤ size c' ≤ size c + length ids)%nat.
Proof.
  revert c pieces. induction ids as [|id ids IH]; intros c pieces Hwf Hwithin; simpl.
  - intros [= <- <-]. split; [done|]. split; [done|]. lia.
  - destruct (resolve c id) as [[piece c1]| |] eqn:Hres; simpl; [|done..].
    destruct (resolve_all ids c1) as [[ps c2]| |] eqn:Hall; simpl; [|done..].
    intros [= <- <-].
    destruct (resolve_wf _ _ _ _ Hwf Hwithin Hres) as (Hwf1 & Hwithin1 & Hs1).
    destruct (IH c1 ps Hwf1 Hwithin1 Hall) as (? & ? & ?).
    split; [done|]. split; [done|]. lia.
Qed.

(** The text [build_context] returns on a clean cache, whenever it
    returns. *)
Lemma build_context_text (ids : list Z) (c c' : LruBox Z string)
    (budget : Z) (out : string) :
  0 ≤ budget ≤ INT_MAX → clean c → build_context ids c budget = Ok (out, c') →
  out = stitch (fake_doc_text <$> take (Z.to_nat (budget / 40)) ids)
  ∧ clean c'.
Proof.
  intros Hb Hclean Hrun.
  destruct (build_context_inv _ _ _ _ _ Hb Hrun) as (pieces & Hall & ->).
  destruct (resolve_all_clean _ _ _ _ Hclean Hall) as [-> Hclean'].
  split; [|done].
  set (k := Z.to_nat (budget / 40)).
  rewrite <- fmap_take, take_take.
  by replace (k `min` S k)%nat with k by lia.
Qed.

(** Distinct identifiers that are not cached, on a cache of positive
    capacity: [build_context] returns, with the fragments of the first
    [budget / 40] identifiers, and its effect on the cache is that of
    putting the texts of the first [budget / 40 + 1]. *)
Lemma build_context_fresh_run (ids : list Z) (c : LruBox Z string)
    (budget : Z) :
  (1 ≤ cap_ c)%N → NoDup ids → (∀ id, id ∈ ids → slots_ c !! id = None) →
  0 ≤ budget ≤ INT_MAX →
  ∃ c', build_context ids c budget
        = Ok (stitch (fake_doc_text <$> take (Z.to_nat (budget / 40)) ids), c')
        ∧ put_all c (doc_entries (take (S (Z.to_nat (budget / 40))) ids))
          = Ok c'.
Proof.
  intros Hcap Hnd Hfresh Hb. rewrite build_context_resolve_all by done.
  set (k := Z.to_nat (budget / 40)).
  assert (∀ id, id ∈ take (S k) ids → slots_ c !! id = None) as Hfresh'
    by (intros id Hid; apply Hfresh; by apply elem_of_take_1 in Hid).
  rewrite resolve_all_fresh; [|by apply NoDup_take_1|done].
  destruct (put_all_fresh_defined (doc_entries (take (S k) ids)) c)
    as [c' Hrun]; rewrite ?doc_entries_keys; [by apply NoDup_take_1|done..|].
  rewrite Hrun. simpl. exists c'. split; [|done].
  f_equal. f_equal. f_equal.
  rewrite <- fmap_take, take_take.
  by replace (k `min` S k)%nat with k by lia.
Qed.

(** X22. What [build_context] does on identifiers that are distinct and
    not yet cached, for a budget [b >= 0] and a cache of positive
    capacity: it returns the fragments of the first [b / 40] identifiers
    (all of them if there are fewer), in input order, each followed by one
    newline; with [n >= 1] identifiers and [b = 40 n - 1] these are
    [n - 1] fragments. Its effect on the cache is that of putting the
    texts of the first [b / 40 + 1] identifiers in order: the identifier
    at the stop point is cached although its fragment is not appended,
    and no later identifier is. *)
Theorem build_context_fresh (ids : list Z) (c : LruBox Z string) (budget : Z) :
  (1 ≤ cap_ c)%N → NoDup ids → (∀ id, id ∈ ids → slots_ c !! id = None) →
  0 ≤ budget ≤ INT_MAX →
  ∃ c', build_context ids c budget
        = Ok (stitch (fake_doc_text <$> take (Z.to_nat (budget / 40)) ids), c')
        ∧ put_all c (doc_entries (take (S (Z.to_nat (budget / 40))) ids))
          = Ok c'
        ∧ (1 ≤ Z.of_nat (length ids) →
           budget = 40 * Z.of_nat (length ids) - 1 →
           length (take (Z.to_nat (budget / 40)) ids) = (length ids - 1)%nat)
        ∧ (∀ id, ids !! Z.to_nat (budget / 40) = Some id →
             slots_ c' !! id = Some (fake_doc_text id))
        ∧ (∀ id, id ∈ drop (S (Z.to_nat (budget / 40))) ids →
             slots_ c' !! id = None).
Proof.
  intros Hcap Hnd Hfresh Hb.
  destruct (build_context_fresh_run ids c budget Hcap Hnd Hfresh Hb)
    as (c' & Hrun & Hputs).
  exists c'. split; [done|]. split; [done|].
  set (k := Z.to_nat (budget / 40)) in *.
  split; [|split].
  - intros Hn Hbudget.
    assert (budget / 40 = Z.of_nat (length ids) - 1) as Hdiv.
    { symmetry. apply (Z.div_unique_pos budget 40 _ 39); lia. }
    rewrite length_take. lia.
  - intros id Hid. rewrite (take_S_r _ _ _ Hid) in Hputs.
    unfold doc_entries in Hputs. rewrite fmap_app in Hputs.
    by apply put_all_last in Hputs.
  - intros id Hid.
    rewrite <- (take_drop (S k) ids) in Hnd.
    apply NoDup_app in Hnd as (_ & Hdisj & _).
    destruct (slots_ c' !! id) as [v|] eqn:E; [|done].
    destruct (put_all_lookup_inv _ _ _ _ _ Hputs E) as [Hin|Hold].
    + apply (list_elem_of_fmap_2 fst) in Hin. rewrite doc_entries_keys in Hin.
      simpl in Hin. by destruct (Hdisj _ Hin).
    + rewrite Hfresh in Hold; [done|].
      rewrite <- (take_drop (S k) ids). set_solver.
Qed.

(** X11. [build_context] keeps the fragment cache sound: from a
    well-formed cache within its capacity that holds only texts of
    [fake_doc_text], a call with a budget [b >= 0] that returns leaves a
    cache with the same capacity and the same three properties. *)
Theorem build_context_keeps_cache_sound (ids : list Z) (c c' : LruBox Z string)
    (budget : Z) (out : string) :
  0 ≤ budget ≤ INT_MAX → wf c → within_cap c → clean c →
  build_context ids c budget = Ok (out, c') →
  cap_ c' = cap_ c ∧ wf c' ∧ within_cap c' ∧ clean c'
  ∧ (N.of_nat (size c') ≤ cap_ c)%N.
Proof.
  intros Hb Hwf Hwithin Hclean Hrun.
  destruct (build_context_inv _ _ _ _ _ Hb Hrun) as (pieces & Hall & _).
  destruct (resolve_all_clean _ _ _ _ Hclean Hall) as [_ Hclean'].
  destruct (resolve_all_wf _ _ _ _ Hwf Hwithin Hall) as (Hwf' & Hwithin' & _).
  destruct (resolve_all_length _ _ _ _ Hall) as [_ Hc].
  repeat (split; [done|]).
  rewrite (wf_size c' Hwf'). unfold within_cap in Hwithin'. by rewrite <- Hc.
Qed.

(** X12. The fragment cache is transparent: on caches that hold only
    texts of [fake_doc_text], the text [build_context] returns, whenever
    it returns, does not depend on what is cached nor on the capacity: it
    is made of the texts of [fake_doc_text] for the first [b / 40]
    identifiers. *)
Theorem build_context_cache_transparent (ids : list Z)
    (c1 c2 c1' c2' : LruBox Z string) (budget : Z) (out1 out2 : string) :
  0 ≤ budget ≤ INT_MAX → clean c1 → clean c2 →
  build_context ids c1 budget = Ok (out1, c1') →
  build_context ids c2 budget = Ok (out2, c2') →
  out1 = out2
  ∧ out1 = stitch (fake_doc_text <$> take (Z.to_nat (budget / 40)) ids)
  ∧ clean c1' ∧ clean c2'.
Proof.
  intros Hb Hclean1 Hclean2 Hrun1 Hrun2.
  destruct (build_context_text _ _ _ _ _ Hb Hclean1 Hrun1) as [-> ?].
  destruct (build_context_text _ _ _ _ _ Hb Hclean2 Hrun2) as [-> ?].
  done.
Qed.

(** X20. A call of [build_context] with budget [b >= 0] that returns
    never shrinks the fragment cache and adds at most [b / 40 + 1] entries
    to it, and no more than there are identifiers; the last identifier it
    resolved is in the cache afterwards. *)
Theorem build_context_cache_growth (ids : list Z) (c c' : LruBox Z string)
    (budget : Z) (out : string) :
  0 ≤ budget ≤ INT_MAX → wf c → within_cap c →
  build_context ids c budget = Ok (out, c') →
  (size c ≤ size c')%nat
  ∧ (size c' ≤ size c
       + Nat.min (S (Z.to_nat (budget / 40))) (length ids))%nat
  ∧ (∀ id, last (take (S (Z.to_nat (budget / 40))) ids) = Some id →
       is_Some (slots_ c' !! id)).
Proof.
  intros Hb Hwf Hwithin Hrun.
  destruct (build_context_inv _ _ _ _ _ Hb Hrun) as (pieces & Hall & _).
  destruct (resolve_all_wf _ _ _ _ Hwf Hwithin Hall) as (_ & _ & Hsize).
  rewrite length_take in Hsize.
  split; [lia|]. split; [lia|].
  intros id Hlast. apply last_removelast in Hlast.
  rewrite Hlast, resolve_all_app in Hall.
  destruct (resolve_all (removelast _) c) as [[p1 c1]| |]; simpl in Hall; [|done..].
  destruct (resolve c1 id) as [[p c2]| |] eqn:Hres; simpl in Hall; [|done..].
  injection Hall as <- <-. apply resolve_cached in Hres. by rewrite Hres.
Qed.

(** *** Instances *)

Lemma clean_new (C : N) : clean (LruBox_new C).
Proof. intros id s Hid. discriminate Hid. Defined.

(** Instance of X10. *)
Lemma fake_doc_text_inj_witness :
  7 ≠ 70 ∧ fake_doc_text 7 ≠ fake_doc_text 70.
Proof.
  assert (7 ≠ 70) as Hne by lia.
  split; [exact Hne|]. exact (fake_doc_text_inj 7 70 Hne).
Defined.

(** Instance of X22: three identifiers, budget [40 * 3 - 1], an empty
    cache of capacity 8. *)
Lemma build_context_fresh_witness :
  let c := LruBox_new (K:=Z) (V:=string) 8 in
  (1 ≤ cap_ c)%N ∧ NoDup [5; 3; 9]
  ∧ (∀ id, id ∈ [5; 3; 9] → slots_ c !! id = None)
  ∧ 0 ≤ 119 ≤ INT_MAX
  ∧ ∃ c', build_context [5; 3; 9] c 119
          = Ok (stitch [fake_doc_text 5; fake_doc_text 3], c')
          ∧ slots_ c' !! 9 = Some (fake_doc_text 9).
Proof.
  intros c.
  assert (1 ≤ cap_ c)%N as Hcap by (simpl; lia).
  assert (NoDup [5; 3; 9]) as Hnd
    by (apply (bool_decide_unpack _); vm_compute; exact I).
  assert (∀ id, id ∈ [5; 3; 9] → slots_ c !! id = None) as Hfresh
    by (intros id _; reflexivity).
  assert (0 ≤ 119 ≤ INT_MAX) as Hb by (unfold INT_MAX; lia).
  split; [exact Hcap|]. split; [exact Hnd|]. split; [exact Hfresh|].
  split; [exact Hb|].
  destruct (build_context_fresh [5; 3; 9] c 119 Hcap Hnd Hfresh Hb)
    as (c' & Hrun & _ & _ & Hstop & _).
  exists c'. split; [exact Hrun|]. apply Hstop. reflexivity.
Defined.

(** A call evaluated on three identifiers and an empty cache of
    capacity 2, for the instances below. *)
Lemma build_context_example :
  { r | build_context [5; 3; 9] (LruBox_new 2) 320 = Ok r }.
Proof. eexists. vm_compute. reflexivity. Defined.

(** Instance of X11. *)
Lemma build_context_keeps_cache_sound_witness :
  let c := LruBox_new (K:=Z) (V:=string) 2 in
  0 ≤ 320 ≤ INT_MAX ∧ wf c ∧ within_cap c ∧ clean c
  ∧ ∃ out c', build_context [5; 3; 9] c 320 = Ok (out, c')
              ∧ wf c' ∧ clean c' ∧ (N.of_nat (size c') ≤ 2)%N.
Proof.
  intros c.
  assert (0 ≤ 320 ≤ INT_MAX) as Hb by (unfold INT_MAX; lia).
  pose proof (wf_new (K:=Z) (V:=string) 2) as Hwf.
  assert (within_cap c) as Hwithin by (unfold within_cap; simpl; lia).
  pose proof (clean_new 2) as Hclean.
  split; [exact Hb|]. split; [exact Hwf|].
  split; [exact Hwithin|]. split; [exact Hclean|].
  destruct build_context_example as [[out c'] Hrun].
  destruct (build_context_keeps_cache_sound [5; 3; 9] c c' 320 out
              Hb Hwf Hwithin Hclean Hrun)
    as (_ & Hwf' & _ & Hclean' & Hsize).
  exists out, c'. auto.
Defined.

(** A call on an empty cache of capacity 8 and one on a cache of
    capacity 1, for the instance of X12. *)
Lemma build_context_example_8 :
  { r | build_context [5; 3; 9] (LruBox_new 8) 119 = Ok r }.
Proof. eexists. vm_compute. reflexivity. Defined.

Lemma build_context_example_1 :
  { r | build_context [5; 3; 9] (LruBox_new 1) 119 = Ok r }.
Proof. eexists. vm_compute. reflexivity. Defined.

(** Instance of X12. *)
Lemma build_context_cache_transparent_witness :
  0 ≤ 119 ≤ INT_MAX ∧ clean (LruBox_new 8) ∧ clean (LruBox_new 1)
  ∧ ∃ out1 c1' out2 c2',
      build_context [5; 3; 9] (LruBox_new 8) 119 = Ok (out1, c1')
      ∧ build_context [5; 3; 9] (LruBox_new 1) 119 = Ok (out2, c2')
      ∧ out1 = out2.
Proof.
  assert (0 ≤ 119 ≤ INT_MAX) as Hb by (unfold INT_MAX; lia).
  split; [exact Hb|]. split; [exact (clean_new 8)|]. split; [exact (clean_new 1)|].
  destruct build_context_example_8 as [[out1 c1'] Hrun1].
  destruct build_context_example_1 as [[out2 c2'] Hrun2].
  exists out1, c1', out2, c2'. split; [exact Hrun1|]. split; [exact Hrun2|].
  destruct (build_context_cache_transparent [5; 3; 9] _ _ c1' c2' 119 out1 out2
              Hb (clean_new 8) (clean_new 1) Hrun1 Hrun2) as (Heq & _).
  exact Heq.
Defined.

(** A call with budget 50, for the instance of X20. *)
Lemma build_context_example_50 :
  { r | build_context [5; 3; 9] (LruBox_new 8) 50 = Ok r }.
Proof. eexists. vm_compute. reflexivity. Defined.

(** Instance of X20: three identifiers, budget 50, an empty cache. *)
Lemma build_context_cache_growth_witness :
  let c := LruBox_new (K:=Z) (V:=string) 8 in
  0 ≤ 50 ≤ INT_MAX ∧ wf c ∧ within_cap c
  ∧ ∃ out c', build_context [5; 3; 9] c 50 = Ok (out, c')
              ∧ (size c' ≤ 2)%nat ∧ is_Some (slots_ c' !! 3).
Proof.
  intros c.
  assert (0 ≤ 50 ≤ INT_MAX) as Hb by (unfold INT_MAX; lia).
  pose proof (wf_new (K:=Z) (V:=string) 8) as Hwf.
  assert (within_cap c) as Hwithin by (unfold within_cap; simpl; lia).
  split; [exact Hb|]. split; [exact Hwf|]. split; [exact Hwithin|].
  destruct build_context_example_50 as [[out c'] Hrun].
  destruct (build_context_cache_growth [5; 3; 9] c c' 50 out Hb Hwf Hwithin Hrun)
    as (_ & Hmax & Hlast).
  exists out, c'. split; [exact Hrun|]. split; [exact Hmax|].
  apply Hlast. reflexivity.
Defined.

(** ** Orchestrator: one request *)

Lemma pick_knobs_top_k (budget_ms retr_ms gen_ms : float) :
  (top_k (pick_knobs budget_ms retr_ms gen_ms) = 6
   ∧ cheap_mode (pick_knobs budget_ms retr_ms gen_ms) = true)
  ∨ (top_k (pick_knobs budget_ms retr_ms gen_ms) = 10
     ∧ cheap_mode (pick_knobs budget_ms retr_ms gen_ms) = false).
Proof.
  unfold pick_knobs. cbn zeta.
  destruct (PrimFloat.ltb _ gen_ms), (PrimFloat.ltb _ retr_ms); simpl; auto.
Qed.

Lemma pick_knobs_top_k_range (budget_ms retr_ms gen_ms : float) :
  0 ≤ top_k (pick_knobs budget_ms retr_ms gen_ms) ≤ 10.
Proof.
  destruct (pick_knobs_top_k budget_ms retr_ms gen_ms) as [[Ht _]|[Ht _]];
    rewrite Ht; lia.
Qed.

Section OrchestratorMore.
Context `{RandomEngine}.

Lemma fake_retrieval_length q (k : Z) (hits : list Z) :
  fake_retrieval q k = Ok hits → (length hits ≤ Z.to_nat k)%nat.
Proof.
  unfold fake_retrieval.
  destruct (reserve 4 (to_size_t k)) as [[]| |]; simpl; [|done..].
  intros [= <-]. etrans; [apply length_unique|].
  rewrite merge_sort_Permutation, length_draw_hits. simpl. lia.
Qed.

(** X13. A first request is defined. Whatever latencies [pick_knobs] is
    given (every double, NaN and infinities included), a request served
    with the knobs it returns, for a text that is not in the retrieval
    cache and on a fragment cache that holds nothing, both of positive
    capacity, returns and nothing throws: it is a miss, it uses at most
    ten identifiers and stores them under the text, and its context is
    made of the fragments of the first five identifiers in cheap mode and
    of the first eight otherwise. *)
Theorem serve_one_with_pick_knobs q (rc : LruBox string (list Z))
    (bc : LruBox Z string) (budget_ms retr_ms gen_ms : float) :
  slots_ rc !! q = None → slots_ bc = ∅ →
  (1 ≤ cap_ rc)%N → (1 ≤ cap_ bc)%N →
  let knobs := pick_knobs budget_ms retr_ms gen_ms in
  ∃ s rc' bc',
    serve_one q rc bc knobs = Ok (s, rc', bc')
    ∧ cache_hit s = false
    ∧ (length (doc_ids s) ≤ 10)%nat
    ∧ slots_ rc' !! q = Some (doc_ids s)
    ∧ context s
      = stitch (fake_doc_text <$>
                  take (if cheap_mode knobs then 5 else 8) (doc_ids s))
    ∧ cap_ rc' = cap_ rc.
Proof.
  intros Hmiss Hempty Hrc Hbc knobs.
  pose proof (pick_knobs_top_k_range budget_ms retr_ms gen_ms) as Hk.
  fold knobs in Hk.
  assert (0 ≤ top_k knobs ≤ INT_MAX) as Hk' by (unfold INT_MAX; lia).
  unfold serve_one. rewrite get_absent by done. simpl.
  destruct (fake_retrieval q (top_k knobs)) as [ids| |] eqn:Hretr;
    [|by rewrite fake_retrieval_defined in Hretr..].
  simpl.
  destruct (put_new_defined rc q ids Hmiss Hrc) as [rc' Hput].
  rewrite Hput. simpl.
  destruct (build_context_fresh_run ids bc (if cheap_mode knobs then 220 else 320))
    as (bc' & Hctx & _);
    [done|by apply fake_retrieval_NoDup in Hretr
    |intros id _; by rewrite Hempty|apply token_budget_range|].
  rewrite Hctx. simpl. eexists _, rc', bc'. split; [done|]. simpl.
  split; [done|].
  split; [apply fake_retrieval_length in Hretr; lia|].
  split; [by apply put_lookup in Hput|].
  split; [by destruct (cheap_mode knobs)|].
  by apply put_cap in Hput.
Qed.

(** X14. What a served request contains, on a fragment cache that holds
    only texts of [fake_doc_text]: the context is made of the fragments
    of the first five identifiers in cheap mode and of the first eight
    otherwise, in order, and the answer is generated from that context;
    the fragment cache still holds only such texts. *)
Theorem serve_one_context q (rc rc' : LruBox string (list Z))
    (bc bc' : LruBox Z string) (knobs : TuneKnobs) (s : Served) :
  serve_one q rc bc knobs = Ok (s, rc', bc') → clean bc →
  context s
  = stitch (fake_doc_text <$>
              take (if cheap_mode knobs then 5 else 8) (doc_ids s))
  ∧ answer s = fake_generate q (context s) (cheap_mode knobs)
  ∧ clean bc'.
Proof.
  intros Hrun Hclean. unfold serve_one in Hrun.
  destruct (get rc q) as [[cached rc1]| |]; simpl in Hrun; [|done..].
  destruct (match cached with
            | Some ids => Ok (ids, rc1)
            | None => out ← fake_retrieval q (top_k knobs);
                      c ← put rc1 q out; Ok (out, c)
            end) as [[ids rc2]| |]; simpl in Hrun; [|done..].
  destruct (build_context ids bc _) as [[ctx bc2]| |] eqn:Hctx;
    simpl in Hrun; [|done..].
  injection Hrun as <- <- <-. simpl.
  destruct (build_context_text _ _ _ _ _ (token_budget_range _) Hclean Hctx)
    as [-> Hclean2].
  split; [by destruct (cheap_mode knobs)|]. split; [|done].
  by destruct (cheap_mode knobs).
Qed.

(** X15. What a served request leaves in the retrieval cache: the text is
    its most recent key and is stored with the identifiers the request
    used; on a hit no stored entry changed; on a miss the identifiers are
    those of [fake_retrieval] for the knob [top_k]. *)
Theorem serve_one_retrieval_cache q (rc rc' : LruBox string (list Z))
    (bc bc' : LruBox Z string) (knobs : TuneKnobs) (s : Served) :
  serve_one q rc bc knobs = Ok (s, rc', bc') →
  slots_ rc' !! q = Some (doc_ids s)
  ∧ head (order_ rc') = Some q
  ∧ (cache_hit s = true →
     slots_ rc !! q = Some (doc_ids s) ∧ slots_ rc' = slots_ rc)
  ∧ (cache_hit s = false →
     slots_ rc !! q = None ∧ fake_retrieval q (top_k knobs) = Ok (doc_ids s)).
Proof.
  intros Hrun.
  destruct (slots_ rc !! q) as [ids|] eqn:E.
  - destruct (serve_one_hit_inv _ _ _ _ _ _ _ _ E Hrun)
      as (Hget & _ & Hhit & Hids).
    destruct (get_inv _ _ _ _ Hget) as (_ & _ & Hslots & _ & Hhead).
    rewrite Hids, Hhit, Hslots, E.
    split; [done|]. split; [by apply Hhead|]. by split.
  - destruct (serve_one_miss_inv _ _ _ _ _ _ _ E Hrun)
      as (ids & Hretr & Hput & _ & Hhit & Hids).
    rewrite Hids, Hhit.
    split; [by apply put_lookup in Hput|].
    split; [by apply put_head in Hput|]. by split.
Qed.

(** X16. A fault of the retrieval task reaches the caller: when the text
    is not cached and the knob [top_k] is negative, [fake_retrieval]
    throws inside the task and [serve_one] throws at the join. *)
Theorem serve_one_retrieval_fault q (rc : LruBox string (list Z))
    (bc : LruBox Z string) (knobs : TuneKnobs) :
  slots_ rc !! q = None → INT_MIN ≤ top_k knobs < 0 →
  serve_one q rc bc knobs = Throws.
Proof.
  intros Hmiss Hk. unfold serve_one. rewrite get_absent by done. simpl.
  assert (fake_retrieval q (top_k knobs) = Throws) as ->; [|done].
  unfold fake_retrieval, reserve, to_size_t.
  unfold INT_MIN, PTRDIFF_MAX, SIZE_MOD, SIZE_BITS in *.
  assert (top_k knobs mod 2 ^ 64 = top_k knobs + 2 ^ 64) as ->
    by (symmetry; apply (Z.mod_unique_pos _ _ (-1)); lia).
  destruct (Z.ltb_spec (2 ^ 63 - 1) ((top_k knobs + 2 ^ 64) * 4)) as [_|?];
    [done|lia].
Qed.

End OrchestratorMore.

(** ** The driver *)

Section DriverSpec.
Context `{RandomEngine}.

(** A traffic that asks a text, then another one, then the first again,
    on an empty retrieval cache of capacity 2 or more: the third request
    finds its text cached behind the second one, and its lookup is
    undefined, unless an earlier request already was. *)
Lemma main_loop_rehit (p95 : float) (measured : nat → float * float)
    (q1 q2 : string) (rest : list string) (i : nat) (C_retr : N)
    (bc : LruBox Z string) (last_retr last_gen : float) :
  q1 ≠ q2 → (2 ≤ C_retr)%N →
  main_loop p95 measured (q1 :: q2 :: q1 :: rest) i (LruBox_new C_retr) bc
    last_retr last_gen
  = Undefined.
Proof.
  intros Hne HC. cbn [main_loop].
  set (knobs1 := pick_knobs p95 last_retr last_gen).
  assert (0 ≤ top_k knobs1 ≤ INT_MAX) as Hk1.
  { pose proof (pick_knobs_top_k_range p95 last_retr last_gen).
    unfold knobs1, INT_MAX. lia. }
  pose proof (serve_one_not_throws q1 (LruBox_new C_retr) bc knobs1 Hk1) as Hnt1.
  destruct (serve_one q1 (LruBox_new C_retr) bc knobs1)
    as [[[s1 rc1] bc1]| |] eqn:Hrun1; simpl; [|done..].
  destruct (serve_one_miss_inv _ _ _ _ _ _ _ (lookup_empty q1) Hrun1)
    as (ids1 & _ & Hput1 & _).
  rewrite put_room in Hput1; [|apply lookup_empty|simpl; lia].
  injection Hput1 as <-. simpl.
  destruct (measured i) as [retr1 gen1].
  cbn [main_loop].
  set (knobs2 := pick_knobs p95 retr1 gen1).
  assert (0 ≤ top_k knobs2 ≤ INT_MAX) as Hk2.
  { pose proof (pick_knobs_top_k_range p95 retr1 gen1).
    unfold knobs2, INT_MAX. lia. }
  set (rc1 := {| cap_ := C_retr; order_ := [q1];
                 slots_ := <[q1 := ids1]> ∅; iters_ := {[q1]} |}) in *.
  pose proof (serve_one_not_throws q2 rc1 bc1 knobs2 Hk2) as Hnt2.
  destruct (serve_one q2 rc1 bc1 knobs2)
    as [[[s2 rc2] bc2]| |] eqn:Hrun2; simpl; [|done..].
  assert (slots_ rc1 !! q2 = None) as Hmiss2
    by (simpl; rewrite lookup_insert_ne by done; apply lookup_empty).
  destruct (serve_one_miss_inv _ _ _ _ _ _ _ Hmiss2 Hrun2)
    as (ids2 & _ & Hput2 & _).
  rewrite put_room in Hput2; [|done|simpl; lia].
  injection Hput2 as <-. simpl.
  destruct (measured (S i)) as [retr2 gen2].
  cbn [main_loop].
  rewrite serve_one_stale; [done| | |]; simpl.
  - unfold iters_front. simpl. by rewrite front_iter_cons.
  - rewrite lookup_insert_ne by done. rewrite lookup_insert_eq. by eexists.
  - congruence.
Qed.

(** X23. [main] has undefined behaviour, whatever the latencies it
    measures and whatever the engine draws: its third request repeats the
    text of the first one after a different text was served, so the
    retrieval cache is read through an iterator that the second request
    invalidated. *)
Theorem main_undefined (measured : nat → float * float) :
  main measured = Undefined.
Proof.
  unfold main, main_traffic. by rewrite main_loop_rehit.
Qed.

End DriverSpec.

(** *** Instances *)

(** Instance of X13: the first request of [main]. *)
Lemma serve_one_with_pick_knobs_witness :
  let rc := LruBox_new (K:=string) (V:=list Z) 512 in
  let bc := LruBox_new (K:=Z) (V:=string) 4096 in
  slots_ rc !! "what is rag latency?" = None ∧ slots_ bc = ∅
  ∧ (1 ≤ cap_ rc)%N ∧ (1 ≤ cap_ bc)%N
  ∧ ∃ s rc' bc',
      serve_one (H:=lcg_engine) "what is rag latency?" rc bc (pick_knobs 40 8 18)
      = Ok (s, rc', bc')
      ∧ cache_hit s = false ∧ (length (doc_ids s) ≤ 10)%nat.
Proof.
  intros rc bc.
  assert (slots_ rc !! "what is rag latency?" = None) as Hmiss by reflexivity.
  assert (slots_ bc = ∅) as Hempty by reflexivity.
  assert (1 ≤ cap_ rc)%N as Hrc by (simpl; lia).
  assert (1 ≤ cap_ bc)%N as Hbc by (simpl; lia).
  split; [exact Hmiss|]. split; [exact Hempty|].
  split; [exact Hrc|]. split; [exact Hbc|].
  destruct (serve_one_with_pick_knobs (H:=lcg_engine) "what is rag latency?"
              rc bc 40 8 18 Hmiss Hempty Hrc Hbc)
    as (s & rc' & bc' & Hrun & Hhit & Hlen & _).
  exists s, rc', bc'. auto.
Defined.

(** A request evaluated on the example engine, for the instances below. *)
Lemma serve_one_example :
  { r | serve_one (H:=lcg_engine) "what is rag latency?"
          (LruBox_new 4) (LruBox_new 16)
          {| top_k := 10; batch := 8; cheap_mode := false |} = Ok r }.
Proof. eexists. vm_compute. reflexivity. Defined.

(** Instance of X14. *)
Lemma serve_one_context_witness :
  ∃ s rc' bc',
    serve_one (H:=lcg_engine) "what is rag latency?"
      (LruBox_new 4) (LruBox_new 16)
      {| top_k := 10; batch := 8; cheap_mode := false |} = Ok (s, rc', bc')
    ∧ clean (LruBox_new 16)
    ∧ context s = stitch (fake_doc_text <$> take 8 (doc_ids s))
    ∧ clean bc'.
Proof.
  destruct serve_one_example as [[[s rc'] bc'] Hrun].
  exists s, rc', bc'. split; [exact Hrun|].
  split; [exact (clean_new 16)|].
  destruct (serve_one_context (H:=lcg_engine) _ _ _ _ _ _ _ Hrun (clean_new 16))
    as (Hctx & _ & Hclean).
  split; [exact Hctx|exact Hclean].
Defined.

(** Instance of X15. *)
Lemma serve_one_retrieval_cache_witness :
  ∃ s rc' bc',
    serve_one (H:=lcg_engine) "what is rag latency?"
      (LruBox_new 4) (LruBox_new 16)
      {| top_k := 10; batch := 8; cheap_mode := false |} = Ok (s, rc', bc')
    ∧ slots_ rc' !! "what is rag latency?" = Some (doc_ids s)
    ∧ head (order_ rc') = Some "what is rag latency?".
Proof.
  destruct serve_one_example as [[[s rc'] bc'] Hrun].
  exists s, rc', bc'. split; [exact Hrun|].
  destruct (serve_one_retrieval_cache (H:=lcg_engine) _ _ _ _ _ _ _ Hrun)
    as (Hstored & Hhead & _).
  split; [exact Hstored|exact Hhead].
Defined.

(** Instance of X16. *)
Lemma serve_one_retrieval_fault_witness :
  let rc := LruBox_new (K:=string) (V:=list Z) 4 in
  let knobs := {| top_k := -1; batch := 8; cheap_mode := false |} in
  slots_ rc !! "what is rag latency?" = None ∧ INT_MIN ≤ top_k knobs < 0
  ∧ serve_one (H:=lcg_engine) "what is rag latency?" rc (LruBox_new 16) knobs
    = Throws.
Proof.
  intros rc knobs.
  assert (slots_ rc !! "what is rag latency?" = None) as Hmiss by reflexivity.
  assert (INT_MIN ≤ top_k knobs < 0) as Hk by (unfold INT_MIN; simpl; lia).
  split; [exact Hmiss|]. split; [exact Hk|].
  exact (serve_one_retrieval_fault (H:=lcg_engine) "what is rag latency?"
           rc (LruBox_new 16) knobs Hmiss Hk).
Defined.

(** [main] on the example engine, with constant measurements. *)
Example main_lcg : main (H:=lcg_engine) (λ _, (6, 20)%float) = Undefined.
Proof. vm_compute. reflexivity. Qed.
